(** * gcache: the LRU cache of lru.go

    A shallow embedding of [LRUCache] (file lru.go) and the properties of
    its store, its recency list, its lazy expiration and its batch
    operations.

    Representation.  The Go cache keeps every [*lruItem] twice: in the map
    [items], under the item's key, and as the value of one element of the
    doubly linked [evictList].  Here the map holds the item records and the
    list holds, front first, the keys of its items: a pointer to an item is
    the key under which the map holds it.  The two structures stay separate
    objects, and their agreement is the invariant [wf] proved below.

    Everything the cache asks of its environment is explicit: the injected
    clock [c.clock] and the system clock [time.Now()] are two oracles that
    answer successive calls, and the calls the cache makes to its callbacks
    and to its statistics sink are appended to a trace. *)

From Stdlib Require Import ZArith Lia.
From stdpp Require Import gmap list strings.

Local Open Scope Z_scope.

(** ** The part of Go's [time] package the cache uses *)

Module time.

(** An instant is its number of nanoseconds on the clock's time line; a
    [Duration] is a signed 64-bit count of nanoseconds. *)
Definition Time : Type := Z.
Definition Duration : Type := Z.

Definition minDuration : Duration := - 2 ^ 63.
Definition maxDuration : Duration := 2 ^ 63 - 1.

(** [t.Add(d)] *)
Definition Add (t : Time) (d : Duration) : Time := t + d.

(** [t.Sub(u)]: the difference, or the nearest representable duration
    when the difference does not fit in 64 bits. *)
Definition Sub (t u : Time) : Duration :=
  let d := t - u in
  if d <? minDuration then minDuration
  else if maxDuration <? d then maxDuration
  else d.

(** [t.Before(u)] *)
Definition Before (t u : Time) : bool := t <? u.

End time.

(** A clock is an oracle: [readings n] is what its [n]-th call to [Now()]
    answers, [calls] counts the calls made so far.  Nothing is assumed of
    the readings (a fake clock may stand still or be set back). *)
Record Clock : Type := mkClock {
  readings : nat → time.Time;
  calls : nat;
}.

Definition Clock_peek (c : Clock) : time.Time := readings c (calls c).

Definition Clock_tick (c : Clock) : Clock :=
  {| readings := readings c; calls := S (calls c) |}.

(** ** Errors *)

(** The three sentinel errors lru.go returns, and the errors that only the
    caller's hooks and loader create. *)
Inductive error : Type :=
  | KeyNotFoundError
  | KeyNotSetWithExpireError
  | KeyBatchSetOverCacheSize
  | CallerError (msg : string).

#[global] Instance error_eq_dec : EqDecision error.
Proof. solve_decision. Defined.

(** A Go result pair [(v, err)]: [Err e] when [err != nil]. *)
Inductive result (A : Type) : Type :=
  | Ok (a : A)
  | Err (e : error).
Arguments Ok {A} a.
Arguments Err {A} e.

(** ** Operations of [container/list] on a list of item handles *)

Section ListOps.
Context {K : Type} {EqK : EqDecision K}.

(** [l.Remove(e)] *)
Definition list_Remove (k : K) (l : list K) : list K :=
  filter (λ x, x ≠ k) l.

(** [l.MoveToFront(e)]: nothing happens when [e] is not an element of [l]. *)
Definition list_MoveToFront (k : K) (l : list K) : list K :=
  if decide (k ∈ l) then k :: list_Remove k l else l.

(** [l.PushFront(v)] *)
Definition list_PushFront (k : K) (l : list K) : list K := k :: l.

(** [l.Back()] *)
Definition list_Back (l : list K) : option K := last l.

End ListOps.

(** ** The cache *)

Section LRU.
Context {K : Type} {EqK : EqDecision K} {CntK : Countable K} {V : Type}.

(** [lruItem].  Its [clock] field is always the cache's own clock (see
    [set]) and its [element] field is the item's handle in [evictList],
    which is the key itself. *)
Record lruItem : Type := mkItem {
  it_key : K;
  it_value : V;
  it_expiration : option time.Time;
}.

(** What a [LoaderExpireFunc] returns: [(value, *time.Duration, error)]. *)
Definition LoaderResult : Type := V * option time.Duration * option error.

(** [LRUCache], with the fields of the embedded [baseCache] that lru.go
    reads.  The two callbacks are opaque to the cache: the field says
    whether one is configured, and its calls go to the trace. *)
Record LRUCache : Type := mkCache {
  c_clock : Clock;
  c_size : Z;
  c_expiration : option time.Duration;
  c_serializeFunc : option (K → V → result V);
  c_deserializeFunc : option (K → V → result V);
  c_loaderExpireFunc : option (K → LoaderResult);
  c_addedFunc : bool;
  c_evictedFunc : bool;
  c_items : gmap K lruItem;
  c_evictList : list K;
}.

(** Calls that leave the cache. *)
Inductive event : Type :=
  | AddedFunc (k : K) (v : V)
  | EvictedFunc (k : K) (v : V)
  | IncrHitCount
  | IncrMissCount.

(** The cache together with the system clock and the trace of its
    outgoing calls, oldest first. *)
Record World : Type := mkWorld {
  cache : LRUCache;
  sysclock : Clock;
  trace : list event;
}.

(** *** State-passing computations *)

Definition M (A : Type) : Type := World → A * World.

Definition ret {A} (a : A) : M A := λ w, (a, w).

Definition bind {A B} (m : M A) (f : A → M B) : M B :=
  λ w, let (a, w') := m w in f a w'.

Notation "'do' x <- m ; k" := (bind m (λ x, k))
  (at level 10, x name, m at level 100, k at level 200).
Notation "m ;; k" := (bind m (λ _, k))
  (at level 100, k at level 200, right associativity).

Definition when (b : bool) (m : M unit) : M unit :=
  if b then m else ret tt.

Definition read {A} (f : LRUCache → A) : M A := λ w, (f (cache w), w).

Definition update (f : LRUCache → LRUCache) : M unit :=
  λ w, (tt, {| cache := f (cache w); sysclock := sysclock w; trace := trace w |}).

Definition emit (e : event) : M unit :=
  λ w, (tt, {| cache := cache w; sysclock := sysclock w; trace := trace w ++ [e] |}).

Definition with_clock (cl : Clock) (c : LRUCache) : LRUCache :=
  {| c_clock := cl; c_size := c_size c; c_expiration := c_expiration c;
     c_serializeFunc := c_serializeFunc c;
     c_deserializeFunc := c_deserializeFunc c;
     c_loaderExpireFunc := c_loaderExpireFunc c;
     c_addedFunc := c_addedFunc c; c_evictedFunc := c_evictedFunc c;
     c_items := c_items c; c_evictList := c_evictList c |}.

Definition with_items (m : gmap K lruItem) (c : LRUCache) : LRUCache :=
  {| c_clock := c_clock c; c_size := c_size c; c_expiration := c_expiration c;
     c_serializeFunc := c_serializeFunc c;
     c_deserializeFunc := c_deserializeFunc c;
     c_loaderExpireFunc := c_loaderExpireFunc c;
     c_addedFunc := c_addedFunc c; c_evictedFunc := c_evictedFunc c;
     c_items := m; c_evictList := c_evictList c |}.

Definition with_evictList (l : list K) (c : LRUCache) : LRUCache :=
  {| c_clock := c_clock c; c_size := c_size c; c_expiration := c_expiration c;
     c_serializeFunc := c_serializeFunc c;
     c_deserializeFunc := c_deserializeFunc c;
     c_loaderExpireFunc := c_loaderExpireFunc c;
     c_addedFunc := c_addedFunc c; c_evictedFunc := c_evictedFunc c;
     c_items := c_items c; c_evictList := l |}.

(** [c.clock.Now()] *)
Definition clock_Now : M time.Time :=
  λ w, (Clock_peek (c_clock (cache w)),
        {| cache := with_clock (Clock_tick (c_clock (cache w))) (cache w);
           sysclock := sysclock w; trace := trace w |}).

(** [time.Now()] *)
Definition time_Now : M time.Time :=
  λ w, (Clock_peek (sysclock w),
        {| cache := cache w; sysclock := Clock_tick (sysclock w);
           trace := trace w |}).

(** *** lruItem methods *)

(** [it.IsExpired(now)]: the clock is read only for an item that has a
    deadline, and only when no instant is passed in. *)
Definition IsExpired (it : lruItem) (now : option time.Time) : M bool :=
  match it_expiration it with
  | None => ret false
  | Some d =>
      match now with
      | Some t => ret (time.Before d t)
      | None => do t <- clock_Now; ret (time.Before d t)
      end
  end.

(** [it.GetExpirationDuration(now)]: [None] is the Go pair [(nil, false)]. *)
Definition GetExpirationDuration (it : lruItem) (now : option time.Time)
  : M (option time.Duration) :=
  match it_expiration it with
  | None => ret None
  | Some d =>
      match now with
      | Some t => ret (Some (time.Sub d t))
      | None => do t <- clock_Now; ret (Some (time.Sub d t))
      end
  end.

(** *** Writes through an item pointer *)

Definition item_set_value (v : V) (it : lruItem) : lruItem :=
  {| it_key := it_key it; it_value := v; it_expiration := it_expiration it |}.

Definition item_set_expiration (t : time.Time) (it : lruItem) : lruItem :=
  {| it_key := it_key it; it_value := it_value it; it_expiration := Some t |}.

(** [item.value = value] for the item held under [p] *)
Definition store_value (p : K) (v : V) : M unit :=
  update (λ c, with_items (alter (item_set_value v) p (c_items c)) c).

(** [item.expiration = &t] for the item held under [p] *)
Definition store_expiration (p : K) (t : time.Time) : M unit :=
  update (λ c, with_items (alter (item_set_expiration t) p (c_items c)) c).

(** *** Internal operations *)

(** [c.removeElement(entry)]; [entry.element] is the handle of the entry
    in the list, its key. *)
Definition removeElement (entry : lruItem) : M unit :=
  update (λ c, with_evictList (list_Remove (it_key entry) (c_evictList c)) c) ;;
  update (λ c, with_items (delete (it_key entry) (c_items c)) c) ;;
  do hook <- read c_evictedFunc;
  when hook (emit (EvictedFunc (it_key entry) (it_value entry))).

(** [c.evict(count)]: the loop runs [count] times or until the list is
    empty.  The entry is the item the back element points to; the second
    [None] branch stands for an element without an item, which no
    well-formed cache has. *)
Fixpoint evict_loop (n : nat) : M unit :=
  match n with
  | O => ret tt
  | S n' =>
      do ent <- read (λ c, list_Back (c_evictList c));
      match ent with
      | None => ret tt
      | Some kb =>
          do entry <- read (λ c, c_items c !! kb);
          match entry with
          | Some entry => removeElement entry ;; evict_loop n'
          | None => ret tt
          end
      end
  end.

Definition evict (count : Z) : M unit := evict_loop (Z.to_nat count).

(** [c.serializeFunc(key, value)] when the hook is configured, the value
    itself otherwise. *)
Definition serialize (c : LRUCache) (key : K) (value : V) : result V :=
  match c_serializeFunc c with
  | Some f => f key value
  | None => Ok value
  end.

(** [c.set(key, value)].  The returned pointer is the key of the item. *)
Definition set (key : K) (value : V) : M (result K) :=
  do ser <- read (λ c, serialize c key value);
  match ser with
  | Err err => ret (Err err)
  | Ok value =>
      do item <- read (λ c, c_items c !! key);
      match item with
      | Some _ =>
          update (λ c, with_evictList (list_MoveToFront key (c_evictList c)) c) ;;
          store_value key value
      | None =>
          do full <- read (λ c, bool_decide (c_size c ≤ Z.of_nat (length (c_evictList c))));
          when full (evict 1) ;;
          update (λ c, with_evictList (list_PushFront key (c_evictList c)) c) ;;
          update (λ c, with_items
            (<[key := {| it_key := key; it_value := value; it_expiration := None |}]>
               (c_items c)) c)
      end ;;
      do exp <- read c_expiration;
      match exp with
      | Some d => do now <- clock_Now; store_expiration key (time.Add now d)
      | None => ret tt
      end ;;
      do hook <- read c_addedFunc;
      when hook (emit (AddedFunc key value)) ;;
      ret (Ok key)
  end.

(** [c.Set(key, value)] *)
Definition Set_ (key : K) (value : V) : M (option error) :=
  do r <- set key value;
  match r with
  | Ok _ => ret None
  | Err err => ret (Some err)
  end.

(** [c.SetWithExpire(key, value, expiration)] *)
Definition SetWithExpire (key : K) (value : V) (expiration : time.Duration)
  : M (option error) :=
  do r <- set key value;
  match r with
  | Err err => ret (Some err)
  | Ok item =>
      do now <- clock_Now;
      store_expiration item (time.Add now expiration) ;;
      ret None
  end.

(** A [BatchSetReq], through its three getters. *)
Record BatchSetReq : Type := mkReq {
  GetKey : K;
  GetValue : V;
  GetExpiration : option time.Duration;
}.

(** The body of the loop of [BatchSet], for one request. *)
Definition batchSetStep (req : BatchSetReq) : M (option error) :=
  do r <- set (GetKey req) (GetValue req);
  match r with
  | Err err => ret (Some err)
  | Ok item =>
      match GetExpiration req with
      | Some d =>
          do now <- clock_Now;
          store_expiration item (time.Add now d) ;;
          ret None
      | None => ret None
      end
  end.

Fixpoint batchSetLoop (reqs : list BatchSetReq) : M (option error) :=
  match reqs with
  | [] => ret None
  | req :: reqs' =>
      do r <- batchSetStep req;
      match r with
      | Some err => ret (Some err)
      | None => batchSetLoop reqs'
      end
  end.

(** [c.BatchSet(reqs)] *)
Definition BatchSet (reqs : list BatchSetReq) : M (option error) :=
  do size <- read c_size;
  if bool_decide (size < Z.of_nat (length reqs))
  then ret (Some KeyBatchSetOverCacheSize)
  else batchSetLoop reqs.

(** [c.GetKeyTTL(key)] *)
Definition GetKeyTTL (key : K) : M (result time.Duration) :=
  do item <- read (λ c, c_items c !! key);
  match item with
  | Some item =>
      do duration <- GetExpirationDuration item None;
      match duration with
      | Some d => ret (Ok d)
      | None => ret (Err KeyNotSetWithExpireError)
      end
  | None => ret (Err KeyNotFoundError)
  end.

(** [c.getValue(key, onLoad)] *)
Definition getValue (key : K) (onLoad : bool) : M (result V) :=
  do item <- read (λ c, c_items c !! key);
  do found <-
    match item with
    | Some item =>
        do expired <- IsExpired item None;
        if expired
        then removeElement item ;; ret None
        else
          update (λ c, with_evictList (list_MoveToFront key (c_evictList c)) c) ;;
          ret (Some (it_value item))
    | None => ret None
    end;
  match found with
  | Some v => when (negb onLoad) (emit IncrHitCount) ;; ret (Ok v)
  | None => when (negb onLoad) (emit IncrMissCount) ;; ret (Err KeyNotFoundError)
  end.

(** [c.get(key, onLoad)] *)
Definition get (key : K) (onLoad : bool) : M (result V) :=
  do r <- getValue key onLoad;
  match r with
  | Err err => ret (Err err)
  | Ok v =>
      do de <- read c_deserializeFunc;
      match de with
      | Some f => ret (f key v)
      | None => ret (Ok v)
      end
  end.

(** [c.load], a method of [baseCache] that runs the loader through the
    cache's load group.  It is declared outside lru.go and the
    operations below take it as it comes: a key, the callback that
    stores what the loader returned, and the wait flag; the pair
    returned is Go's [(value, called, err)]. *)
Variable load : K → (LoaderResult → M (result V)) → bool → M (result V * bool).

(** The callback [getWithLoader] hands to [c.load]. *)
Definition loaderCallback (key : K) (lr : LoaderResult) : M (result V) :=
  let '(v, expiration, e) := lr in
  match e with
  | Some e => ret (Err e)
  | None =>
      do r <- set key v;
      match r with
      | Err err => ret (Err err)
      | Ok item =>
          match expiration with
          | Some d => do now <- clock_Now; store_expiration item (time.Add now d)
          | None => ret tt
          end ;;
          ret (Ok v)
      end
  end.

(** [c.getWithLoader(key, isWait)] *)
Definition getWithLoader (key : K) (isWait : bool) : M (result V) :=
  do loader <- read c_loaderExpireFunc;
  match loader with
  | None => ret (Err KeyNotFoundError)
  | Some _ =>
      do r <- load key (loaderCallback key) isWait;
      ret (fst r)
  end.

(** [c.Get(key)] *)
Definition Get (key : K) : M (result V) :=
  do r <- get key false;
  match r with
  | Err KeyNotFoundError => getWithLoader key true
  | _ => ret r
  end.

(** [c.GetIFPresent(key)] *)
Definition GetIFPresent (key : K) : M (result V) :=
  do r <- get key false;
  match r with
  | Err KeyNotFoundError => getWithLoader key false
  | _ => ret r
  end.

(** [c.has(key, now)] *)
Definition has (key : K) (now : time.Time) : M bool :=
  do item <- read (λ c, c_items c !! key);
  match item with
  | None => ret false
  | Some item => do expired <- IsExpired item (Some now); ret (negb expired)
  end.

(** [c.Has(key)] *)
Definition Has (key : K) : M bool :=
  do now <- time_Now;
  has key now.

(** [c.remove(key)] and [c.Remove(key)] *)
Definition remove (key : K) : M bool :=
  do ent <- read (λ c, c_items c !! key);
  match ent with
  | Some ent => removeElement ent ;; ret true
  | None => ret false
  end.

Definition Remove (key : K) : M bool := remove key.

(** Go ranges over a map in an order it leaves open; the loops below
    range over [map_to_list], one of the possible orders, and what is
    stated of the lists they build does not depend on it. *)

(** [c.Keys(checkExpired)] *)
Fixpoint keysLoop (checkExpired : bool) (now : time.Time) (ks : list K)
    (keys : list K) : M (list K) :=
  match ks with
  | [] => ret keys
  | k :: ks' =>
      do keep <- (if checkExpired then has k now else ret true);
      keysLoop checkExpired now ks' (if keep : bool then keys ++ [k] else keys)
  end.

Definition Keys (checkExpired : bool) : M (list K) :=
  do now <- time_Now;
  do ks <- read (λ c, (map_to_list (c_items c)).*1);
  keysLoop checkExpired now ks [].

(** [c.GetALL(checkExpired)] *)
Fixpoint getAllLoop (checkExpired : bool) (now : time.Time)
    (kis : list (K * lruItem)) (items : gmap K V) : M (gmap K V) :=
  match kis with
  | [] => ret items
  | (k, item) :: kis' =>
      do expired <- (if checkExpired then IsExpired item (Some now) else ret false);
      getAllLoop checkExpired now kis'
        (if expired : bool then items else <[k := it_value item]> items)
  end.

Definition GetALL (checkExpired : bool) : M (gmap K V) :=
  do now <- time_Now;
  do kis <- read (λ c, map_to_list (c_items c));
  getAllLoop checkExpired now kis ∅.

(** [c.Len(checkExpired)] *)
Fixpoint lenLoop (now : time.Time) (ks : list K) (length : Z) : M Z :=
  match ks with
  | [] => ret length
  | k :: ks' =>
      do live <- has k now;
      lenLoop now ks' (if live : bool then length + 1 else length)
  end.

Definition Len (checkExpired : bool) : M Z :=
  if checkExpired
  then
    do now <- time_Now;
    do ks <- read (λ c, (map_to_list (c_items c)).*1);
    lenLoop now ks 0
  else read (λ c, Z.of_nat (size (c_items c))).

(** [c.BatchGet(checkExpired, keys)] *)
Fixpoint batchGetLoop (checkExpired : bool) (now : time.Time)
    (keys : list K) (items : gmap K V) : M (gmap K V) :=
  match keys with
  | [] => ret items
  | k :: keys' =>
      do item <- read (λ c, c_items c !! k);
      do items' <-
        match item with
        | Some item =>
            do expired <- (if checkExpired then IsExpired item (Some now) else ret false);
            ret (if expired : bool then items else <[k := it_value item]> items)
        | None =>
            do r <- getWithLoader k true;
            match r with
            | Ok value => ret (<[k := value]> items)
            | Err _ => ret items
            end
        end;
      batchGetLoop checkExpired now keys' items'
  end.

Definition BatchGet (checkExpired : bool) (keys : list K) : M (gmap K V) :=
  do now <- time_Now;
  batchGetLoop checkExpired now keys ∅.

(** *** Construction *)

(** Modelled from the spec: [CacheBuilder] and [buildCache] are declared
    outside lru.go.  The builder assembles the options at construction
    time (capacity, default expiration, loader, callbacks, transform
    hooks, clock) and [buildCache] hands them to the cache unchanged. *)
Record CacheBuilder : Type := mkBuilder {
  cb_clock : Clock;
  cb_size : Z;
  cb_expiration : option time.Duration;
  cb_serializeFunc : option (K → V → result V);
  cb_deserializeFunc : option (K → V → result V);
  cb_loaderExpireFunc : option (K → LoaderResult);
  cb_addedFunc : bool;
  cb_evictedFunc : bool;
}.

(** [newLRUCache(cb)]: [buildCache], then [c.init()]. *)
Definition newLRUCache (cb : CacheBuilder) : LRUCache :=
  {| c_clock := cb_clock cb; c_size := cb_size cb;
     c_expiration := cb_expiration cb;
     c_serializeFunc := cb_serializeFunc cb;
     c_deserializeFunc := cb_deserializeFunc cb;
     c_loaderExpireFunc := cb_loaderExpireFunc cb;
     c_addedFunc := cb_addedFunc cb; c_evictedFunc := cb_evictedFunc cb;
     c_items := ∅; c_evictList := [] |}.

(** A fresh cache in its environment. *)
Definition newWorld (cb : CacheBuilder) (sys : Clock) : World :=
  {| cache := newLRUCache cb; sysclock := sys; trace := [] |}.

(** *** Sequences of public calls *)

Inductive op : Type :=
  | OpSet (key : K) (value : V)
  | OpSetWithExpire (key : K) (value : V) (expiration : time.Duration)
  | OpBatchSet (reqs : list BatchSetReq)
  | OpRemove (key : K)
  | OpHas (key : K)
  | OpGetKeyTTL (key : K).

(** The world in which one call returns. *)
Definition step (o : op) (w : World) : World :=
  match o with
  | OpSet key value => snd (Set_ key value w)
  | OpSetWithExpire key value expiration => snd (SetWithExpire key value expiration w)
  | OpBatchSet reqs => snd (BatchSet reqs w)
  | OpRemove key => snd (Remove key w)
  | OpHas key => snd (Has key w)
  | OpGetKeyTTL key => snd (GetKeyTTL key w)
  end.

Definition run (ops : list op) (w : World) : World :=
  foldl (λ w o, step o w) w ops.

(** *** The invariant of the store *)

(** The recency list holds every key of the map exactly once and nothing
    else, and every item sits under its own key. *)
Definition wf_store (m : gmap K lruItem) (l : list K) : Prop :=
  NoDup l
  ∧ (∀ k, k ∈ l ↔ is_Some (m !! k))
  ∧ (∀ k it, m !! k = Some it → it_key it = k).

Definition wf (c : LRUCache) : Prop := wf_store (c_items c) (c_evictList c).

(** The number of live entries, [len(c.items)]. *)
Definition live (c : LRUCache) : Z := Z.of_nat (size (c_items c)).

(** *** Vocabulary of the statements *)

(** The deadline [set] leaves on an item whose deadline was [old]: the
    default duration from the clock's next reading when the cache has one,
    the old deadline otherwise. *)
Definition refreshed (c : LRUCache) (old : option time.Time) : option time.Time :=
  match c_expiration c with
  | Some d => Some (time.Add (Clock_peek (c_clock c)) d)
  | None => old
  end.

(** The injected clock once [set] has returned. *)
Definition clock_after_set (c : LRUCache) : Clock :=
  match c_expiration c with
  | Some _ => Clock_tick (c_clock c)
  | None => c_clock c
  end.

Definition added_events (c : LRUCache) (key : K) (value : V) : list event :=
  if c_addedFunc c then [AddedFunc key value] else [].

Definition evicted_events (c : LRUCache) (entry : lruItem) : list event :=
  if c_evictedFunc c then [EvictedFunc (it_key entry) (it_value entry)] else [].

(** The store without [entry]: what [removeElement] leaves of the cache. *)
Definition without (entry : lruItem) (c : LRUCache) : LRUCache :=
  with_items (delete (it_key entry) (c_items c))
    (with_evictList (list_Remove (it_key entry) (c_evictList c)) c).

(** The item [set] leaves under [key]. *)
Definition item_after_set (c : LRUCache) (key : K) (value : V)
    (old : option time.Time) : lruItem :=
  {| it_key := key; it_value := value; it_expiration := refreshed c old |}.

(** The world [set] builds for a key the map does not hold, from the
    world [w0] in which room has been made. *)
Definition pushed (key : K) (v : V) (w0 : World) : World :=
  {| cache :=
       with_clock (clock_after_set (cache w0))
         (with_items
            (<[key := item_after_set (cache w0) key v None]> (c_items (cache w0)))
            (with_evictList (list_PushFront key (c_evictList (cache w0)))
               (cache w0)));
     sysclock := sysclock w0;
     trace := trace w0 ++ added_events (cache w0) key v |}.

(** The world once the deadline of the item at [p] has been set to
    [d] from the clock's next reading:
    [t := c.clock.Now().Add(d); item.expiration = &t]. *)
Definition stamped (p : K) (d : time.Duration) (w : World) : World :=
  {| cache :=
       with_items
         (alter (item_set_expiration (time.Add (Clock_peek (c_clock (cache w))) d))
            p (c_items (cache w)))
         (with_clock (Clock_tick (c_clock (cache w))) (cache w));
     sysclock := sysclock w;
     trace := trace w |}.

(** [it.IsExpired(&now)] as a function of the instant. *)
Definition expired_at (now : time.Time) (it : lruItem) : bool :=
  match it_expiration it with
  | Some d => time.Before d now
  | None => false
  end.

(** The world once the injected clock has answered one call. *)
Definition ticked (w : World) : World :=
  {| cache := with_clock (Clock_tick (c_clock (cache w))) (cache w);
     sysclock := sysclock w; trace := trace w |}.

(** The world once [getValue] has found [key]: the key at the front of
    the list, and a hit counted unless the call comes from the loader. *)
Definition hit (key : K) (onLoad : bool) (w : World) : World :=
  {| cache := with_evictList (list_MoveToFront key (c_evictList (cache w))) (cache w);
     sysclock := sysclock w;
     trace := trace w ++ (if onLoad then [] else [IncrHitCount]) |}.

(** The world once [getValue] has found nothing. *)
Definition missed (onLoad : bool) (w : World) : World :=
  {| cache := cache w; sysclock := sysclock w;
     trace := trace w ++ (if onLoad then [] else [IncrMissCount]) |}.

(** [c.deserializeFunc(key, v)] when the hook is configured, the value
    itself otherwise. *)
Definition deserialize (c : LRUCache) (key : K) (v : V) : result V :=
  match c_deserializeFunc c with
  | Some f => f key v
  | None => Ok v
  end.

(** Whether [key] is stored and not expired at the instant [now]:
    what [c.has(key, &now)] answers. *)
Definition alive (now : time.Time) (c : LRUCache) (key : K) : bool :=
  match c_items c !! key with
  | Some item => negb (expired_at now item)
  | None => false
  end.

(** The value an introspection at the instant [now] reports for [key]. *)
Definition reported (checkExpired : bool) (now : time.Time) (c : LRUCache)
    (key : K) : option V :=
  match c_items c !! key with
  | Some item =>
      if checkExpired && expired_at now item then None else Some (it_value item)
  | None => None
  end.

(** The world once the system clock has answered one call. *)
Definition sys_ticked (w : World) : World :=
  {| cache := cache w; sysclock := Clock_tick (sysclock w); trace := trace w |}.

(** What no operation of lru.go changes: the options the cache was built
    with and the readings of its clock. *)
Definition config (c : LRUCache) :=
  (c_size c, c_expiration c, c_serializeFunc c, c_deserializeFunc c,
   c_loaderExpireFunc c, c_addedFunc c, c_evictedFunc c,
   readings (c_clock c)).

(** [c.evictList.Len() <= c.size] *)
Definition within_capacity (c : LRUCache) : Prop :=
  Z.of_nat (length (c_evictList c)) ≤ c_size c.

(** *** The rest of lru.go *)

(** [c.init()]: a new list and a new map. *)
Definition init : M unit :=
  update (λ c, with_evictList [] c) ;;
  update (λ c, with_items ∅ c).

(** [c.Purge()].  [purgeVisitorFunc] says whether the cache was built with
    a purge visitor; the result lists the calls made to it, one per entry
    of the map, in the order of the range over the map. *)
Definition Purge (purgeVisitorFunc : bool) : M (list (K * V)) :=
  do visits <-
    (if purgeVisitorFunc
     then read (λ c, (λ ki : K * lruItem, (ki.1, it_value ki.2))
                       <$> map_to_list (c_items c))
     else ret []);
  init ;;
  ret visits.

(** [c.keys()].  Go leaves the order of a range over a map open, and it
    may differ from one loop to the next, so this loop need not meet the
    keys in the order in which the loop of [Keys] meets them: [order] is
    the order this loop takes them in. *)
Definition keys (order : list K → list K) : M (list K) :=
  read (λ c, order (map_to_list (c_items c)).*1).

(** The call that does to the store what [BatchSet] does for one request. *)
Definition req_op (req : BatchSetReq) : op :=
  match GetExpiration req with
  | Some d => OpSetWithExpire (GetKey req) (GetValue req) d
  | None => OpSet (GetKey req) (GetValue req)
  end.

(** Every public call of lru.go. *)
Inductive call : Type :=
  | CallOp (o : op)
  | CallGet (key : K)
  | CallGetIFPresent (key : K)
  | CallBatchGet (checkExpired : bool) (keys : list K)
  | CallKeys (checkExpired : bool)
  | CallGetALL (checkExpired : bool)
  | CallLen (checkExpired : bool)
  | CallPurge (purgeVisitorFunc : bool).

Definition step_call (c : call) (w : World) : World :=
  match c with
  | CallOp o => step o w
  | CallGet key => snd (Get key w)
  | CallGetIFPresent key => snd (GetIFPresent key w)
  | CallBatchGet checkExpired keys => snd (BatchGet checkExpired keys w)
  | CallKeys checkExpired => snd (Keys checkExpired w)
  | CallGetALL checkExpired => snd (GetALL checkExpired w)
  | CallLen checkExpired => snd (Len checkExpired w)
  | CallPurge purgeVisitorFunc => snd (Purge purgeVisitorFunc w)
  end.

Definition run_calls (cs : list call) (w : World) : World :=
  foldl (λ w c, step_call c w) w cs.

(** [c.evictList.Len() <= max(1, c.size)]: the bound the list keeps
    whatever the configured size. *)
Definition bounded (c : LRUCache) : Prop :=
  Z.of_nat (length (c_evictList c)) ≤ Z.max 1 (c_size c).

(** The evicted callbacks of [evict], for the keys it removes in turn. *)
Definition evictions (c : LRUCache) (ks : list K) : list event :=
  flat_map (λ k, match c_items c !! k with
                 | Some entry => evicted_events c entry
                 | None => []
                 end) ks.

End LRU.

Arguments call : clear implicits.
Arguments lruItem : clear implicits.
Arguments LoaderResult : clear implicits.
Arguments LRUCache K {_ _} V.
Arguments event : clear implicits.
Arguments World K {_ _} V.
Arguments M K {_ _} V A.
Arguments BatchSetReq : clear implicits.
Arguments CacheBuilder : clear implicits.
Arguments op : clear implicits.

(** ** Concrete caches

    String keys and integer values, a clock that stands still, and the
    callbacks all configured, for the examples that accompany the
    statements below. *)

Module Ex.

Definition still (t : time.Time) : Clock := {| readings := λ _, t; calls := 0 |}.

(** A transform hook that refuses negative values. *)
Definition refuse_negative (_ : string) (v : Z) : result Z :=
  if v <? 0 then Err (CallerError "negative") else Ok v.

(** A transform hook that refuses everything. *)
Definition refuse_all (_ : string) (_ : Z) : result Z :=
  Err (CallerError "refused").

(** A clock that advances by [step] at every call. *)
Definition ticking (step : Z) : Clock :=
  {| readings := λ n, step * Z.of_nat n; calls := 0 |}.

Definition builder_on (clock : Clock) (size : Z)
    (expiration : option time.Duration)
    (ser de : option (string → Z → result Z)) : CacheBuilder string Z :=
  {| cb_clock := clock; cb_size := size; cb_expiration := expiration;
     cb_serializeFunc := ser; cb_deserializeFunc := de;
     cb_loaderExpireFunc := None;
     cb_addedFunc := true; cb_evictedFunc := true |}.

Definition builder (size : Z) (expiration : option time.Duration)
    (ser de : option (string → Z → result Z)) : CacheBuilder string Z :=
  {| cb_clock := still 0; cb_size := size; cb_expiration := expiration;
     cb_serializeFunc := ser; cb_deserializeFunc := de;
     cb_loaderExpireFunc := None;
     cb_addedFunc := true; cb_evictedFunc := true |}.

(** A cache of capacity 2 without default expiration and without hooks. *)
Definition fresh : World string Z := newWorld (builder 2 None None None) (still 0).

(** Scenario 1 of the specification: three keys into a cache of two. *)
Definition three_sets : list (op string Z) :=
  [OpSet "a" 1; OpSet "b" 2; OpSet "c" 3].

(** The full cache after the first two calls of scenario 1. *)
Definition two : World string Z := run [OpSet "a" 1; OpSet "b" 2] fresh.

(** A cache without default expiration whose key "a" has a deadline. *)
Definition timed : World string Z := run [OpSetWithExpire "a" 1 10] fresh.

(** Scenario 2 of the specification: "x" is stored for 50 at instant 0
    and both clocks then read 100. *)
Definition aged : World string Z :=
  run [OpSetWithExpire "x" 1 50]
    (newWorld (builder_on (ticking 100) 2 None None None) (still 100)).

(** A cache on a simulated clock that stands at 0 while the system clock
    reads 100, with "x" stored for 50. *)
Definition simulated : World string Z :=
  run [OpSetWithExpire "x" 1 50]
    (newWorld (builder_on (still 0) 2 None None None) (still 100)).

(** Two entries behind a deserialize hook that refuses every value. *)
Definition guarded : World string Z :=
  run [OpSet "a" 1; OpSet "b" 2]
    (newWorld (builder 2 None None (Some refuse_all)) (still 0)).

(** A batch of three requests, one more than the capacity of [two]. *)
Definition batch3 : list (BatchSetReq string Z) :=
  [ {| GetKey := "x"; GetValue := 7; GetExpiration := None |};
    {| GetKey := "y"; GetValue := 8; GetExpiration := Some 5 |};
    {| GetKey := "z"; GetValue := 9; GetExpiration := None |} ].

(** A cache of capacity 3 whose serialize hook refuses negative values,
    and a batch whose second request it refuses. *)
Definition picky : World string Z :=
  newWorld (builder 3 None (Some refuse_negative) None) (still 0).

Definition batch_bad : list (BatchSetReq string Z) :=
  [ {| GetKey := "x"; GetValue := 7; GetExpiration := None |};
    {| GetKey := "y"; GetValue := -1; GetExpiration := None |};
    {| GetKey := "z"; GetValue := 9; GetExpiration := None |} ].

(** A cache of capacity 3 with a default expiration of 30, on a clock
    that advances by 10 at every reading, whose serialize hook refuses
    negative values. *)
Definition paced : World string Z :=
  newWorld (builder_on (ticking 10) 3 (Some 30) (Some refuse_negative) None)
    (still 0).

(** A cache of capacity 2 with a default expiration of 30 on a simulated
    clock that stands at 7 while the system clock reads 100. *)
Definition lagging : World string Z :=
  newWorld (builder_on (still 7) 2 (Some 30) None None) (still 100).

(** A load group that never loads, for caches without a loader. *)
Definition no_load (_ : string) (_ : LoaderResult Z → M string Z (result Z))
    (_ : bool) : M string Z (result Z * bool) :=
  λ w, ((Err KeyNotFoundError, false), w).

End Ex.

(** ** Facts about the recency list *)

Section ListFacts.
Context {K : Type} {EqK : EqDecision K}.
Implicit Types (k x : K) (l : list K).

Lemma list_Remove_elem k x l : x ∈ list_Remove k l ↔ x ∈ l ∧ x ≠ k.
Proof. unfold list_Remove. rewrite list_elem_of_filter. tauto. Qed.

Lemma list_Remove_NoDup k l : NoDup l → NoDup (list_Remove k l).
Proof. apply NoDup_filter. Qed.

Lemma list_Remove_absent k l : k ∉ l → list_Remove k l = l.
Proof.
  unfold list_Remove. induction l as [|y l IH]; intros Hk; [done|].
  apply not_elem_of_cons in Hk as [Hne Hk].
  rewrite filter_cons_True by congruence. by rewrite IH.
Qed.


Lemma list_Remove_back k l : k ∉ l → list_Remove k (l ++ [k]) = l.
Proof.
  intros Hk. unfold list_Remove.
  rewrite filter_app, filter_cons_False, filter_nil, app_nil_r by tauto.
  by apply list_Remove_absent.
Qed.

Lemma list_Remove_length k l :
  NoDup l → k ∈ l → S (length (list_Remove k l)) = length l.
Proof.
  intros Hnd (l1 & l2 & ->)%list_elem_of_split.
  apply NoDup_app in Hnd. destruct Hnd as (_ & Hl1 & Hl2).
  apply NoDup_cons in Hl2. destruct Hl2 as [Hl2 _].
  unfold list_Remove.
  rewrite filter_app, filter_cons_False by tauto.
  fold (list_Remove k l1) (list_Remove k l2).
  rewrite !list_Remove_absent; [|done|].
  - rewrite !length_app. simpl. lia.
  - intros Hin. apply (Hl1 _ Hin). left.
Qed.

Lemma list_MoveToFront_elem k x l : x ∈ list_MoveToFront k l ↔ x ∈ l.
Proof.
  unfold list_MoveToFront. case_decide as Hk; [|done].
  rewrite elem_of_cons, list_Remove_elem.
  destruct (decide (x = k)) as [->|]; [tauto|]. split; [|tauto].
  intros [?|[? _]]; [contradiction|done].
Qed.

Lemma list_MoveToFront_NoDup k l : NoDup l → NoDup (list_MoveToFront k l).
Proof.
  intros Hnd. unfold list_MoveToFront. case_decide; [|done].
  apply NoDup_cons. split; [|by apply list_Remove_NoDup].
  rewrite list_Remove_elem. tauto.
Qed.

Lemma list_MoveToFront_length k l :
  NoDup l → length (list_MoveToFront k l) = length l.
Proof.
  intros Hnd. unfold list_MoveToFront. case_decide; [|done].
  simpl. by apply list_Remove_length.
Qed.

(** Positions: [x ∈ take n l] says that [x] is among the [n] most
    recently used. *)
Lemma take_elem_mono x n n' l : (n ≤ n')%nat → x ∈ take n l → x ∈ take n' l.
Proof.
  intros Hn. rewrite !elem_of_take. intros (i & Hi & Hlt).
  exists i. split; [done|lia].
Qed.

Lemma list_Remove_take k x n l :
  x ≠ k → x ∈ take n l → x ∈ take n (list_Remove k l).
Proof.
  intros Hne. revert n. induction l as [|y l IH]; intros n; [by destruct n|].
  destruct n as [|n]; simpl; [by rewrite elem_of_nil|].
  unfold list_Remove in *. rewrite filter_cons. case_decide as Hy.
  - simpl. rewrite !elem_of_cons. intros [->|Hin]; [by left|right; by apply IH].
  - rewrite elem_of_cons. intros [->|Hin]; [by destruct Hy|].
    apply (take_elem_mono x n (S n)); [lia|by apply IH].
Qed.

Lemma list_MoveToFront_take k x n l :
  x ∈ take n l → x ∈ take (S n) (list_MoveToFront k l).
Proof.
  intros Hin. unfold list_MoveToFront. case_decide.
  - simpl. destruct (decide (x = k)) as [->|Hne]; [by left|].
    right. by apply list_Remove_take.
  - by apply (take_elem_mono x n (S n)); [lia|].
Qed.

Lemma list_MoveToFront_head k l : k ∈ l → head (list_MoveToFront k l) = Some k.
Proof. intros Hk. unfold list_MoveToFront. by rewrite decide_True. Qed.

End ListFacts.

(** ** The invariant is kept *)

Section Invariant.
Context {K : Type} {EqK : EqDecision K} {CntK : Countable K} {V : Type}.
Implicit Types (c : LRUCache K V) (w : World K V) (k key : K).
Implicit Types (m : gmap K (lruItem K V)) (l : list K) (it : lruItem K V).

Lemma wf_store_length m l : wf_store m l → length l = size m.
Proof.
  intros (Hnd & Hdom & _).
  rewrite <- (size_dom (D := gset K)).
  rewrite <- (size_list_to_set (C := gset K)) by done.
  f_equal. apply set_eq. intros k.
  rewrite elem_of_list_to_set, elem_of_dom. apply Hdom.
Qed.

Lemma wf_store_empty : wf_store (∅ : gmap K (lruItem K V)) [].
Proof.
  split; [constructor|]. split.
  - intros k. rewrite elem_of_nil, lookup_empty. split; [done|]. by intros [? ?].
  - intros k it. by rewrite lookup_empty.
Qed.

Lemma wf_store_alter (f : lruItem K V → lruItem K V) k m l :
  (∀ it, it_key (f it) = it_key it) →
  wf_store m l → wf_store (alter f k m) l.
Proof.
  intros Hf (Hnd & Hdom & Hkey). split; [done|]. split.
  - intros k'. rewrite Hdom, lookup_alter.
    case_decide; [subst k'|done]. by rewrite fmap_is_Some.
  - intros k' it. rewrite lookup_alter. case_decide; [subst k'|by apply Hkey].
    destruct (m !! k) as [it0|] eqn:Hk; simpl; [|done].
    intros [= <-]. rewrite Hf. by apply Hkey.
Qed.

Lemma wf_store_remove k m l :
  wf_store m l → wf_store (delete k m) (list_Remove k l).
Proof.
  intros (Hnd & Hdom & Hkey). split; [by apply list_Remove_NoDup|]. split.
  - intros k'. rewrite list_Remove_elem, Hdom, lookup_delete.
    case_decide; [subst k'|].
    + split; [tauto|]. by intros [? ?].
    + split; [tauto|]. intros ?. split; [done|congruence].
  - intros k' it. rewrite lookup_delete. case_decide; [done|]. by apply Hkey.
Qed.

Lemma wf_store_move k m l : wf_store m l → wf_store m (list_MoveToFront k l).
Proof.
  intros (Hnd & Hdom & Hkey). split; [by apply list_MoveToFront_NoDup|].
  split; [|done]. intros k'. by rewrite list_MoveToFront_elem.
Qed.

Lemma wf_store_push k it m l :
  m !! k = None → it_key it = k →
  wf_store m l → wf_store (<[k := it]> m) (list_PushFront k l).
Proof.
  intros Hk Hit (Hnd & Hdom & Hkey). unfold list_PushFront. split.
  - apply NoDup_cons. split; [|done]. rewrite Hdom, Hk. by intros [? ?].
  - split.
    + intros k'. rewrite elem_of_cons, lookup_insert, Hdom.
      case_decide; [subst k'|].
      * split; [by eauto|]. by left.
      * split; [|by right]. intros [?|?]; [congruence|done].
    + intros k' it'. rewrite lookup_insert. case_decide; [|by apply Hkey].
      congruence.
Qed.

Lemma wf_store_overwrite k it it' m l :
  m !! k = Some it → it_key it' = k →
  wf_store m l → wf_store (<[k := it']> m) l.
Proof.
  intros Hk Hit (Hnd & Hdom & Hkey). split; [done|]. split.
  - intros k'. rewrite lookup_insert, Hdom. case_decide; [subst k'|done].
    rewrite Hk. split; by eauto.
  - intros k' it''. rewrite lookup_insert. case_decide; [|by apply Hkey].
    congruence.
Qed.

Lemma wf_store_back m l l0 kb :
  wf_store m l → l = l0 ++ [kb] → (kb ∉ l0) ∧ is_Some (m !! kb).
Proof.
  intros (Hnd & Hdom & _) ->. split.
  - apply NoDup_app in Hnd. destruct Hnd as (_ & Hd & _).
    intros Hin. apply (Hd _ Hin). left.
  - apply Hdom. rewrite elem_of_app, list_elem_of_singleton. by right.
Qed.

End Invariant.

(** ** What each operation does to the world *)

Section Effects.
Context {K : Type} {EqK : EqDecision K} {CntK : Countable K} {V : Type}.
Implicit Types (c : LRUCache K V) (w : World K V) (k key : K) (value v : V).
Implicit Types (m : gmap K (lruItem K V)) (l : list K) (it entry : lruItem K V).

Ltac run_M :=
  unfold bind, read, update, ret, when, store_value, store_expiration,
    clock_Now, time_Now, emit; simpl.

Lemma alter_value_insert m k it v :
  m !! k = Some it →
  alter (item_set_value v) k m
  = <[k := {| it_key := it_key it; it_value := v;
              it_expiration := it_expiration it |}]> m.
Proof.
  intros Hk. apply map_eq. intros k'.
  destruct (decide (k = k')) as [<-|Hne].
  - by rewrite lookup_alter_eq, lookup_insert_eq, Hk.
  - by rewrite lookup_alter_ne, lookup_insert_ne.
Qed.

Lemma alter_expiration_insert m k it t :
  m !! k = Some it →
  alter (item_set_expiration t) k m
  = <[k := {| it_key := it_key it; it_value := it_value it;
              it_expiration := Some t |}]> m.
Proof.
  intros Hk. apply map_eq. intros k'.
  destruct (decide (k = k')) as [<-|Hne].
  - by rewrite lookup_alter_eq, lookup_insert_eq, Hk.
  - by rewrite lookup_alter_ne, lookup_insert_ne.
Qed.

Lemma removeElement_eq entry w :
  removeElement entry w =
    (tt, {| cache := without entry (cache w); sysclock := sysclock w;
            trace := trace w ++ evicted_events (cache w) entry |}).
Proof.
  unfold removeElement, evicted_events, without. run_M.
  destruct (c_evictedFunc (cache w)); simpl; [done|].
  by rewrite app_nil_r.
Qed.

Lemma evict_one_eq w kb entry :
  list_Back (c_evictList (cache w)) = Some kb →
  c_items (cache w) !! kb = Some entry →
  evict 1 w = removeElement entry w.
Proof.
  intros Hb He. unfold evict. simpl. unfold bind at 1, read at 1.
  simpl. rewrite Hb. unfold bind at 1, read at 1. simpl. rewrite He.
  unfold bind. destruct (removeElement entry w) as [[] w']. done.
Qed.


Lemma evict_loop_S n w :
  evict_loop (S n) w =
    match list_Back (c_evictList (cache w)) with
    | Some kb =>
        match c_items (cache w) !! kb with
        | Some entry => evict_loop n (removeElement entry w).2
        | None => (tt, w)
        end
    | None => (tt, w)
    end.
Proof.
  simpl. unfold bind at 1, read at 1. simpl.
  destruct (list_Back (c_evictList (cache w))) as [kb|]; [|done].
  unfold bind at 1, read at 1. simpl.
  destruct (c_items (cache w) !! kb) as [entry|]; [|done].
  unfold bind. by destruct (removeElement entry w) as [[] w'].
Qed.

(** Eviction touches neither the configuration nor the clocks. *)
Lemma evict_loop_frame n w :
  config (cache (evict_loop n w).2) = config (cache w)
  ∧ c_clock (cache (evict_loop n w).2) = c_clock (cache w)
  ∧ sysclock (evict_loop n w).2 = sysclock w.
Proof.
  revert w. induction n as [|n IH]; intros w; [done|].
  rewrite evict_loop_S.
  destruct (list_Back (c_evictList (cache w))) as [kb|]; [|done].
  destruct (c_items (cache w) !! kb) as [entry|]; [|done].
  destruct (IH (removeElement entry w).2) as (-> & -> & ->).
  by rewrite removeElement_eq.
Qed.

(** [set] when the hook refuses the value. *)
Lemma set_refused key value e w :
  serialize (cache w) key value = Err e →
  set key value w = (Err e, w).
Proof. intros Hs. unfold set. run_M. by rewrite Hs. Qed.

(** [set] on a key the map holds. *)
Lemma set_existing key value v it w :
  serialize (cache w) key value = Ok v →
  c_items (cache w) !! key = Some it →
  set key value w =
    (Ok key,
     {| cache :=
          with_clock (clock_after_set (cache w))
            (with_items
               (<[key := {| it_key := it_key it; it_value := v;
                            it_expiration :=
                              refreshed (cache w) (it_expiration it) |}]>
                  (c_items (cache w)))
               (with_evictList (list_MoveToFront key (c_evictList (cache w)))
                  (cache w)));
        sysclock := sysclock w;
        trace := trace w ++ added_events (cache w) key v |}).
Proof.
  intros Hs Hit. unfold set. run_M. rewrite Hs, Hit. simpl.
  unfold refreshed, clock_after_set, added_events.
  rewrite (alter_value_insert _ _ it) by done.
  destruct (c_expiration (cache w)); simpl;
    destruct (c_addedFunc (cache w)); simpl;
    rewrite ?app_nil_r; try reflexivity;
    (erewrite alter_expiration_insert by apply lookup_insert_eq);
    simpl; by rewrite insert_insert_eq.
Qed.

Lemma set_new key value v w :
  serialize (cache w) key value = Ok v →
  c_items (cache w) !! key = None →
  set key value w =
    (Ok key,
     pushed key v
       (if bool_decide (c_size (cache w) ≤ Z.of_nat (length (c_evictList (cache w))))
        then snd (evict 1 w) else w)).
Proof.
  intros Hs Hit. unfold set, pushed. run_M. rewrite Hs, Hit. simpl.
  set (w0 := if bool_decide _ then snd (evict 1 w) else w).
  assert ((if bool_decide (c_size (cache w) ≤ Z.of_nat (length (c_evictList (cache w))))
           then evict 1 else ret ()) w = (tt, w0)) as ->.
  { subst w0. case_bool_decide; [|done]. by destruct (evict 1 w) as [[] ?]. }
  simpl. unfold item_after_set, refreshed, clock_after_set, added_events.
  destruct (c_expiration (cache w0)); simpl;
    destruct (c_addedFunc (cache w0)); simpl;
    rewrite ?app_nil_r; try reflexivity;
    (erewrite alter_expiration_insert by apply lookup_insert_eq);
    simpl; by rewrite insert_insert_eq.
Qed.

(** [set] on a new key while there is room. *)
Lemma set_new_room key value v w :
  serialize (cache w) key value = Ok v →
  c_items (cache w) !! key = None →
  Z.of_nat (length (c_evictList (cache w))) < c_size (cache w) →
  set key value w = (Ok key, pushed key v w).
Proof.
  intros Hs Hit Hlen. rewrite (set_new _ _ v) by done.
  by rewrite bool_decide_eq_false_2 by lia.
Qed.

(** [set] on a new key at capacity: the item at the back goes first. *)
Lemma set_new_evict key value v w kb entry :
  serialize (cache w) key value = Ok v →
  c_items (cache w) !! key = None →
  c_size (cache w) ≤ Z.of_nat (length (c_evictList (cache w))) →
  list_Back (c_evictList (cache w)) = Some kb →
  c_items (cache w) !! kb = Some entry →
  set key value w = (Ok key, pushed key v (snd (removeElement entry w))).
Proof.
  intros Hs Hit Hlen Hb He. rewrite (set_new _ _ v) by done.
  rewrite bool_decide_eq_true_2 by done.
  by rewrite (evict_one_eq _ kb entry).
Qed.

(** [set] keeps the store well formed and within capacity, and leaves
    the configuration and the system clock alone. *)
Lemma set_inv key value w :
  1 ≤ c_size (cache w) →
  wf (cache w) → within_capacity (cache w) →
  wf (cache (set key value w).2)
  ∧ within_capacity (cache (set key value w).2)
  ∧ config (cache (set key value w).2) = config (cache w)
  ∧ sysclock (set key value w).2 = sysclock w.
Proof.
  intros Hsz Hwf Hcap. unfold wf, within_capacity in *.
  destruct (serialize (cache w) key value) as [v|e] eqn:Hs;
    [|by rewrite (set_refused _ _ e)].
  destruct (c_items (cache w) !! key) as [it|] eqn:Hit.
  { rewrite (set_existing _ _ v it) by done. simpl.
    split; [|split; [|split]].
    - eapply wf_store_overwrite;
        [exact Hit|simpl; by apply Hwf|by apply wf_store_move].
    - rewrite list_MoveToFront_length; [done|]. apply Hwf.
    - unfold config, clock_after_set. simpl.
      by destruct (c_expiration (cache w)).
    - done. }
  destruct (decide (c_size (cache w) ≤ Z.of_nat (length (c_evictList (cache w)))))
    as [Hfull|Hroom].
  - destruct (list_Back (c_evictList (cache w))) as [kb|] eqn:Hb.
    2:{ apply last_None in Hb. rewrite Hb in Hfull. simpl in Hfull. lia. }
    pose proof Hb as (l0 & Hl)%last_Some.
    destruct (wf_store_back _ _ _ _ Hwf Hl) as [Hkb [entry He]].
    assert (it_key entry = kb) as Hek by (by apply Hwf).
    rewrite (set_new_evict _ _ v _ kb entry), removeElement_eq by done.
    simpl. rewrite Hek. split; [|split; [|split]].
    + apply wf_store_push; [|done|by apply wf_store_remove].
      rewrite lookup_delete_ne; [done|]. intros <-. congruence.
    + unfold list_PushFront. simpl.
      rewrite list_Remove_length; [done|apply Hwf|].
      apply Hwf. by eauto.
    + unfold config, clock_after_set. simpl.
      by destruct (c_expiration (cache w)).
    + done.
  - rewrite (set_new_room _ _ v) by (done || lia). simpl.
    split; [|split; [|split]].
    + by apply wf_store_push.
    + unfold list_PushFront. simpl. lia.
    + unfold config, clock_after_set. simpl.
      by destruct (c_expiration (cache w)).
    + done.
Qed.

Lemma Set_eq key value w :
  Set_ key value w =
    match set key value w with
    | (Ok _, w1) => (None, w1)
    | (Err e, w1) => (Some e, w1)
    end.
Proof.
  unfold Set_, bind. destruct (set key value w) as [[item|e] w1]; done.
Qed.

Lemma SetWithExpire_eq key value d w :
  SetWithExpire key value d w =
    match set key value w with
    | (Ok item, w1) => (None, stamped item d w1)
    | (Err e, w1) => (Some e, w1)
    end.
Proof.
  unfold SetWithExpire, bind at 1.
  destruct (set key value w) as [[item|e] w1]; done.
Qed.

Lemma batchSetStep_eq req w :
  batchSetStep req w =
    match set (GetKey req) (GetValue req) w with
    | (Ok item, w1) =>
        (None, match GetExpiration req with
               | Some d => stamped item d w1
               | None => w1
               end)
    | (Err e, w1) => (Some e, w1)
    end.
Proof.
  unfold batchSetStep, bind at 1.
  destruct (set (GetKey req) (GetValue req) w) as [[item|e] w1]; [|done].
  by destruct (GetExpiration req).
Qed.

Lemma stamped_inv p d w :
  wf (cache w) → within_capacity (cache w) →
  wf (cache (stamped p d w))
  ∧ within_capacity (cache (stamped p d w))
  ∧ config (cache (stamped p d w)) = config (cache w).
Proof.
  intros Hwf Hcap. unfold wf, within_capacity in *. simpl.
  split; [|done]. by apply wf_store_alter.
Qed.

Lemma config_size c c' : config c' = config c → c_size c' = c_size c.
Proof. unfold config. congruence. Qed.

Lemma batchSetStep_inv req w :
  1 ≤ c_size (cache w) →
  wf (cache w) → within_capacity (cache w) →
  wf (cache (batchSetStep req w).2)
  ∧ within_capacity (cache (batchSetStep req w).2)
  ∧ config (cache (batchSetStep req w).2) = config (cache w).
Proof.
  intros Hsz Hwf Hcap. rewrite batchSetStep_eq.
  destruct (set_inv (GetKey req) (GetValue req) w Hsz Hwf Hcap)
    as (Hwf1 & Hcap1 & Hcfg1 & _).
  destruct (set (GetKey req) (GetValue req) w) as [[item|e] w1]; simpl in *;
    [|done].
  destruct (GetExpiration req) as [d|]; [|done].
  destruct (stamped_inv item d w1 Hwf1 Hcap1) as (? & ? & Hcfg2).
  split; [done|]. split; [done|]. exact (eq_trans Hcfg2 Hcfg1).
Qed.

Lemma batchSetLoop_inv reqs w :
  1 ≤ c_size (cache w) →
  wf (cache w) → within_capacity (cache w) →
  wf (cache (batchSetLoop reqs w).2)
  ∧ within_capacity (cache (batchSetLoop reqs w).2)
  ∧ config (cache (batchSetLoop reqs w).2) = config (cache w).
Proof.
  revert w. induction reqs as [|req reqs IH]; intros w Hsz Hwf Hcap; [done|].
  simpl. unfold bind.
  destruct (batchSetStep_inv req w Hsz Hwf Hcap) as (Hwf1 & Hcap1 & Hcfg1).
  destruct (batchSetStep req w) as [[e|] w1]; simpl in *; [done|].
  pose proof (config_size _ _ Hcfg1) as Hsz1.
  destruct (IH w1) as (? & ? & Hcfg2); [lia|done|done|].
  split; [done|]. split; [done|]. exact (eq_trans Hcfg2 Hcfg1).
Qed.

Lemma BatchSet_eq reqs w :
  BatchSet reqs w =
    if bool_decide (c_size (cache w) < Z.of_nat (length reqs))
    then (Some KeyBatchSetOverCacheSize, w)
    else batchSetLoop reqs w.
Proof. unfold BatchSet. run_M. by case_bool_decide. Qed.

Lemma remove_eq key w :
  remove key w =
    match c_items (cache w) !! key with
    | Some ent => (true, (removeElement ent w).2)
    | None => (false, w)
    end.
Proof.
  unfold remove. run_M. destruct (c_items (cache w) !! key) as [ent|]; [|done].
  by destruct (removeElement ent w) as [[] ?].
Qed.

Lemma IsExpired_at item now w :
  IsExpired item (Some now) w = (expired_at now item, w).
Proof. unfold IsExpired, expired_at. by destruct (it_expiration item). Qed.

Lemma has_eq key now w : has key now w = (alive now (cache w) key, w).
Proof.
  unfold has, alive. run_M.
  destruct (c_items (cache w) !! key) as [item|]; [|done].
  by rewrite IsExpired_at.
Qed.

Lemma Has_eq key w :
  Has key w = (alive (Clock_peek (sysclock w)) (cache w) key, sys_ticked w).
Proof. unfold Has. run_M. by rewrite !has_eq. Qed.

Lemma keysLoop_eq checkExpired now (ks keys : list K) w :
  keysLoop checkExpired now ks keys w =
    (keys ++ (if checkExpired
              then filter (λ k, alive now (cache w) k = true) ks
              else ks), w).
Proof.
  revert keys. induction ks as [|k ks IH]; intros keys; simpl.
  { destruct checkExpired; by rewrite app_nil_r. }
  unfold bind. destruct checkExpired.
  - rewrite has_eq, IH, filter_cons.
    destruct (alive now (cache w) k); simpl.
    + by rewrite <- app_assoc.
    + done.
  - unfold ret at 1. by rewrite IH, <- app_assoc.
Qed.

Lemma Keys_eq checkExpired w :
  Keys checkExpired w =
    (if checkExpired
     then filter (λ k, alive (Clock_peek (sysclock w)) (cache w) k = true)
            (map_to_list (c_items (cache w))).*1
     else (map_to_list (c_items (cache w))).*1,
     sys_ticked w).
Proof. unfold Keys. run_M. by rewrite keysLoop_eq. Qed.

Lemma lenLoop_eq now (ks : list K) n w :
  lenLoop now ks n w =
    (n + Z.of_nat (length (filter (λ k, alive now (cache w) k = true) ks)), w).
Proof.
  revert n. induction ks as [|k ks IH]; intros n; simpl.
  { unfold ret. f_equal. lia. }
  unfold bind. rewrite has_eq, IH, filter_cons.
  destruct (alive now (cache w) k); simpl; f_equal; lia.
Qed.

Lemma Len_eq checkExpired w :
  Len checkExpired w =
    if checkExpired
    then (Z.of_nat (length (filter
              (λ k, alive (Clock_peek (sysclock w)) (cache w) k = true)
              (map_to_list (c_items (cache w))).*1)),
          sys_ticked w)
    else (live (cache w), w).
Proof.
  unfold Len. destruct checkExpired; [|done]. run_M. by rewrite lenLoop_eq.
Qed.

Lemma getAllLoop_step (checkExpired : bool) now (item : lruItem K V) w :
  (if checkExpired then IsExpired item (Some now) else ret false) w
  = (checkExpired && expired_at now item, w).
Proof. destruct checkExpired; [by rewrite IsExpired_at|done]. Qed.

Lemma getAllLoop_world checkExpired now (kis : list (K * lruItem K V))
    (items : gmap K V) w :
  (getAllLoop checkExpired now kis items w).2 = w.
Proof.
  revert items. induction kis as [|[k0 it0] kis IH]; intros items; [done|].
  simpl. unfold bind. rewrite getAllLoop_step. apply IH.
Qed.

Lemma getAllLoop_lookup checkExpired now (kis : list (K * lruItem K V))
    (items : gmap K V) w k :
  NoDup kis.*1 →
  (getAllLoop checkExpired now kis items w).1 !! k
    = match (list_to_map kis : gmap K (lruItem K V)) !! k with
      | Some item =>
          if checkExpired && expired_at now item
          then items !! k else Some (it_value item)
      | None => items !! k
      end.
Proof.
  revert items. induction kis as [|[k0 it0] kis IH]; intros items Hnd; [done|].
  apply NoDup_cons in Hnd as [Hk0 Hnd]. simpl. unfold bind.
  rewrite getAllLoop_step, IH by done.
  destruct (decide (k0 = k)) as [->|Hne].
  - rewrite lookup_insert_eq, (not_elem_of_list_to_map_1 _ _ Hk0).
    destruct (checkExpired && expired_at now it0); [done|].
    by rewrite lookup_insert_eq.
  - rewrite lookup_insert_ne by done.
    destruct (checkExpired && expired_at now it0);
      by rewrite ?lookup_insert_ne.
Qed.

Lemma GetALL_eq checkExpired w :
  (GetALL checkExpired w).2 = sys_ticked w
  ∧ ∀ k, (GetALL checkExpired w).1 !! k
         = reported checkExpired (Clock_peek (sysclock w)) (cache w) k.
Proof.
  unfold GetALL, reported. run_M.
  pose proof (NoDup_fst_map_to_list (c_items (cache w))) as Hnd.
  split; [apply (getAllLoop_world _ _ _ _ (sys_ticked w))|].
  intros k.
  pose proof (getAllLoop_lookup checkExpired (Clock_peek (sysclock w))
                (map_to_list (c_items (cache w))) ∅ (sys_ticked w) k Hnd)
    as Hk.
  unfold sys_ticked in Hk. rewrite Hk, list_to_map_to_list.
  destruct (c_items (cache w) !! k) as [item|]; [|done].
  by destruct (checkExpired && expired_at _ item).
Qed.

(** [set] never reads the system clock. *)
Lemma set_sysclock key value w : sysclock (set key value w).2 = sysclock w.
Proof.
  destruct (serialize (cache w) key value) as [v|e] eqn:Hs;
    [|by rewrite (set_refused _ _ e)].
  destruct (c_items (cache w) !! key) as [it|] eqn:Hit.
  - by rewrite (set_existing _ _ v it).
  - rewrite (set_new _ _ v) by done. simpl. case_bool_decide; [|done].
    apply evict_loop_frame.
Qed.

Lemma GetKeyTTL_eq key w :
  GetKeyTTL key w =
    match c_items (cache w) !! key with
    | Some item =>
        match it_expiration item with
        | Some d =>
            (Ok (time.Sub d (Clock_peek (c_clock (cache w)))),
             {| cache := with_clock (Clock_tick (c_clock (cache w))) (cache w);
                sysclock := sysclock w; trace := trace w |})
        | None => (Err KeyNotSetWithExpireError, w)
        end
    | None => (Err KeyNotFoundError, w)
    end.
Proof.
  unfold GetKeyTTL, GetExpirationDuration. run_M.
  destruct (c_items (cache w) !! key) as [item|]; [|done].
  by destruct (it_expiration item).
Qed.

Lemma getValue_eq key onLoad w :
  getValue key onLoad w =
    match c_items (cache w) !! key with
    | Some item =>
        match it_expiration item with
        | Some d =>
            if time.Before d (Clock_peek (c_clock (cache w)))
            then (Err KeyNotFoundError,
                  missed onLoad (removeElement item (ticked w)).2)
            else (Ok (it_value item), hit key onLoad (ticked w))
        | None => (Ok (it_value item), hit key onLoad w)
        end
    | None => (Err KeyNotFoundError, missed onLoad w)
    end.
Proof.
  unfold getValue, IsExpired, hit, missed, ticked. run_M.
  destruct (c_items (cache w) !! key) as [item|]; simpl.
  - destruct (it_expiration item) as [d|]; simpl.
    + destruct (time.Before d (Clock_peek (c_clock (cache w)))); simpl.
      * unfold bind. rewrite removeElement_eq. simpl.
        destruct onLoad; simpl; by rewrite ?app_nil_r.
      * destruct onLoad; simpl; by rewrite ?app_nil_r.
    + destruct onLoad; simpl; by rewrite ?app_nil_r.
  - destruct onLoad, w; simpl; by rewrite ?app_nil_r.
Qed.

Lemma get_eq key onLoad w :
  get key onLoad w =
    match getValue key onLoad w with
    | (Ok v, w1) => (deserialize (cache w1) key v, w1)
    | (Err e, w1) => (Err e, w1)
    end.
Proof.
  unfold get, bind at 1, deserialize.
  destruct (getValue key onLoad w) as [[v|e] w1]; [|done].
  run_M. by destruct (c_deserializeFunc (cache w1)).
Qed.

(** Every public call of [op] keeps the invariant. *)
Lemma step_inv o w :
  1 ≤ c_size (cache w) →
  wf (cache w) → within_capacity (cache w) →
  wf (cache (step o w))
  ∧ within_capacity (cache (step o w))
  ∧ config (cache (step o w)) = config (cache w).
Proof.
  intros Hsz Hwf Hcap. destruct o as [key value|key value d|reqs|key|key|key]; simpl.
  - rewrite Set_eq.
    destruct (set_inv key value w Hsz Hwf Hcap) as (? & ? & ? & _).
    by destruct (set key value w) as [[item|e] w1].
  - rewrite SetWithExpire_eq.
    destruct (set_inv key value w Hsz Hwf Hcap) as (Hwf1 & Hcap1 & Hcfg1 & _).
    destruct (set key value w) as [[item|e] w1]; simpl in *; [|done].
    destruct (stamped_inv item d w1 Hwf1 Hcap1) as (? & ? & Hcfg2).
    split; [done|]. split; [done|]. exact (eq_trans Hcfg2 Hcfg1).
  - rewrite BatchSet_eq. case_bool_decide; [done|].
    by apply batchSetLoop_inv.
  - unfold Remove. rewrite remove_eq.
    destruct (c_items (cache w) !! key) as [ent|]; [|done].
    rewrite removeElement_eq. simpl. unfold wf, within_capacity in *. simpl.
    split; [by apply wf_store_remove|]. split; [|done].
    pose proof (length_filter (λ x, x ≠ it_key ent) (c_evictList (cache w))).
    unfold list_Remove. lia.
  - by rewrite Has_eq.
  - rewrite GetKeyTTL_eq.
    destruct (c_items (cache w) !! key) as [item|]; [|done].
    by destruct (it_expiration item).
Qed.

Lemma run_inv ops w :
  1 ≤ c_size (cache w) →
  wf (cache w) → within_capacity (cache w) →
  wf (cache (run ops w))
  ∧ within_capacity (cache (run ops w))
  ∧ config (cache (run ops w)) = config (cache w).
Proof.
  revert w. induction ops as [|o ops IH]; intros w Hsz Hwf Hcap; [done|].
  simpl. destruct (step_inv o w Hsz Hwf Hcap) as (Hwf1 & Hcap1 & Hcfg1).
  pose proof (config_size _ _ Hcfg1) as Hsz1.
  destruct (IH (step o w)) as (? & ? & Hcfg2); [lia|done|done|].
  split; [done|]. split; [done|]. exact (eq_trans Hcfg2 Hcfg1).
Qed.

Lemma newWorld_inv (cb : CacheBuilder K V) sys :
  0 ≤ cb_size cb →
  wf (cache (newWorld cb sys)) ∧ within_capacity (cache (newWorld cb sys)).
Proof.
  intros Hsz. split; [apply wf_store_empty|]. unfold within_capacity. simpl. lia.
Qed.

(** Every world reached from a fresh cache by public calls is well
    formed and within capacity. *)
Lemma reachable_inv (cb : CacheBuilder K V) sys ops :
  1 ≤ cb_size cb →
  wf (cache (run ops (newWorld cb sys)))
  ∧ within_capacity (cache (run ops (newWorld cb sys)))
  ∧ c_size (cache (run ops (newWorld cb sys))) = cb_size cb.
Proof.
  intros Hsz. destruct (newWorld_inv cb sys) as [Hwf0 Hcap0]; [lia|].
  destruct (run_inv ops (newWorld cb sys)) as (Hwf & Hcap & Hcfg); [done..|].
  split; [done|]. split; [done|]. by rewrite (config_size _ _ Hcfg).
Qed.

End Effects.

(** ** Writes: capacity, recency, deadlines *)

Section Writes.
Context {K : Type} {EqK : EqDecision K} {CntK : Countable K} {V : Type}.
Implicit Types (c : LRUCache K V) (w : World K V) (k key : K) (value v : V).
Implicit Types (m : gmap K (lruItem K V)) (l : list K) (it entry : lruItem K V).

Lemma wf_live c : wf c → live c = Z.of_nat (length (c_evictList c)).
Proof. intros Hwf. unfold live. by rewrite (wf_store_length _ _ Hwf). Qed.

(** A new key set into a full cache: the item at the back of the list
    is removed, then the new item is pushed. *)
Lemma set_at_capacity key value v w :
  wf (cache w) → 1 ≤ c_size (cache w) → c_size (cache w) ≤ live (cache w) →
  serialize (cache w) key value = Ok v →
  c_items (cache w) !! key = None →
  ∃ l0 kb entry,
    c_evictList (cache w) = l0 ++ [kb]
    ∧ c_items (cache w) !! kb = Some entry
    ∧ it_key entry = kb ∧ kb ≠ key ∧ (kb ∉ l0)
    ∧ set key value w = (Ok key, pushed key v (removeElement entry w).2)
    ∧ c_evictList (cache (set key value w).2) = key :: l0
    ∧ c_items (cache (set key value w).2)
      = <[key := item_after_set (cache w) key v None]> (delete kb (c_items (cache w)))
    ∧ trace (set key value w).2
      = trace w ++ evicted_events (cache w) entry ++ added_events (cache w) key v
    ∧ live (cache (set key value w).2) = live (cache w).
Proof.
  intros Hwf Hsz Hfull Hs Hit. rewrite wf_live in Hfull by done.
  destruct (list_Back (c_evictList (cache w))) as [kb|] eqn:Hb.
  2:{ apply last_None in Hb. rewrite Hb in Hfull. simpl in Hfull. lia. }
  pose proof Hb as (l0 & Hl)%last_Some.
  destruct (wf_store_back _ _ _ _ Hwf Hl) as [Hkb [entry He]].
  assert (it_key entry = kb) as Hek by (by apply Hwf).
  assert (kb ≠ key) as Hne by (intros ->; congruence).
  exists l0, kb, entry. do 5 (split; [done|]).
  rewrite (set_new_evict _ _ v _ kb entry) by done.
  split; [done|]. rewrite removeElement_eq. simpl. rewrite Hek.
  split; [|split; [|split]].
  - unfold list_PushFront. by rewrite Hl, list_Remove_back.
  - done.
  - by rewrite <- app_assoc.
  - unfold live. simpl. f_equal.
    rewrite map_size_insert_None by (by rewrite lookup_delete_ne).
    rewrite map_size_delete_Some by eauto.
    assert (size (c_items (cache w)) ≠ 0%nat); [|lia].
    apply map_size_ne_0_lookup_2 with kb. by eauto.
Qed.

(** C1: on a cache built with a capacity of at least 1, the map holds at
    most [size] entries when any call of a sequence of Set, SetWithExpire,
    BatchSet (and Remove, Has, GetKeyTTL) returns.  When a new key is then
    set into the full store, [set] removes the item at the back of the
    list first and pushes the new item on what remains: Set and
    SetWithExpire return a store that no longer holds the evicted key, with
    as many entries as before, and the eviction callback is traced before
    the added callback. *)
Theorem C1_capacity (cb : CacheBuilder K V) (sys : Clock) (ops : list (op K V)) :
  1 ≤ cb_size cb →
  let w := run ops (newWorld cb sys) in
  live (cache w) ≤ cb_size cb
  ∧ ∀ key value v,
      serialize (cache w) key value = Ok v →
      c_items (cache w) !! key = None →
      live (cache w) = cb_size cb →
      ∃ l0 kb entry,
        c_evictList (cache w) = l0 ++ [kb]
        ∧ c_items (cache w) !! kb = Some entry
        ∧ set key value w = (Ok key, pushed key v (removeElement entry w).2)
        ∧ live (cache (removeElement entry w).2) = cb_size cb - 1
        ∧ Set_ key value w = (None, (set key value w).2)
        ∧ (∀ d, SetWithExpire key value d w
                = (None, stamped key d (set key value w).2))
        ∧ c_items (cache (Set_ key value w).2) !! kb = None
        ∧ (∀ d, c_items (cache (SetWithExpire key value d w).2) !! kb = None)
        ∧ is_Some (c_items (cache (Set_ key value w).2) !! key)
        ∧ c_evictList (cache (Set_ key value w).2) = key :: l0
        ∧ live (cache (Set_ key value w).2) = cb_size cb
        ∧ trace (Set_ key value w).2
          = trace w ++ evicted_events (cache w) entry
              ++ added_events (cache w) key v.
Proof.
  intros Hsz w.
  destruct (reachable_inv cb sys ops Hsz) as (Hwf & Hcap & Hsize).
  fold w in Hwf, Hcap, Hsize.
  split.
  - rewrite wf_live by done. unfold within_capacity in Hcap. lia.
  - intros key value v Hs Hit Hfull.
    destruct (set_at_capacity key value v w)
      as (l0 & kb & entry & Hl & He & Hek & Hne & Hkb & Hset & Hl' & Hm' & Htr & Hlive);
      [done|lia|lia|done|done|].
    exists l0, kb, entry. rewrite Set_eq.
    assert (∀ d, SetWithExpire key value d w
                 = (None, stamped key d (set key value w).2)) as Hwith.
    { intros d. by rewrite SetWithExpire_eq, Hset. }
    assert (c_items (cache (set key value w).2) !! kb = None) as Hgone.
    { by rewrite Hm', lookup_insert_ne, lookup_delete_eq. }
    split; [done|]. split; [done|]. split; [done|]. split.
    { rewrite removeElement_eq. unfold live in *. simpl. rewrite Hek.
      rewrite map_size_delete_Some by eauto.
      assert (size (c_items (cache w)) ≠ 0%nat); [|lia].
      apply map_size_ne_0_lookup_2 with kb. by eauto. }
    split; [by rewrite Hset|]. split; [done|].
    assert ((let (r, w1) := set key value w in
             match r with Ok _ => (None, w1) | Err e => (Some e, w1) end).2
            = (set key value w).2) as ->.
    { by rewrite Hset. }
    split; [done|]. split.
    { intros d. rewrite Hwith. simpl. by rewrite lookup_alter_ne. }
    split; [rewrite Hm', lookup_insert_eq; by eauto|].
    split; [done|]. split; [|done]. by rewrite Hlive.
Qed.

(** [set] succeeds exactly when the hook accepts the value. *)
Lemma set_result key value w :
  (set key value w).1
  = match serialize (cache w) key value with
    | Ok _ => Ok key
    | Err e => Err e
    end.
Proof.
  destruct (serialize (cache w) key value) as [v|e] eqn:Hs;
    [|by rewrite (set_refused _ _ e)].
  destruct (c_items (cache w) !! key) as [it|] eqn:Hit.
  - by rewrite (set_existing _ _ v it).
  - by rewrite (set_new _ _ v).
Qed.

(** C3: Set on a key the store holds replaces the value, moves the key
    to the front of the recency list and removes nothing; Set on a new
    key at capacity removes exactly the item at the back of the list and
    then pushes the new item at the front; Set fails only when the
    serialize hook does, never for lack of room. *)
Theorem C3_set key value w :
  wf (cache w) → 1 ≤ c_size (cache w) →
  (∀ e, (Set_ key value w).1 = Some e ↔ serialize (cache w) key value = Err e)
  ∧ (∀ v it,
       serialize (cache w) key value = Ok v →
       c_items (cache w) !! key = Some it →
       (Set_ key value w).1 = None
       ∧ c_evictList (cache (Set_ key value w).2)
         = key :: list_Remove key (c_evictList (cache w))
       ∧ c_items (cache (Set_ key value w).2)
         = <[key := {| it_key := key; it_value := v;
                       it_expiration := refreshed (cache w) (it_expiration it) |}]>
             (c_items (cache w))
       ∧ dom (c_items (cache (Set_ key value w).2)) = dom (c_items (cache w))
       ∧ trace (Set_ key value w).2 = trace w ++ added_events (cache w) key v)
  ∧ (∀ v,
       serialize (cache w) key value = Ok v →
       c_items (cache w) !! key = None →
       c_size (cache w) ≤ live (cache w) →
       ∃ l0 kb entry,
         c_evictList (cache w) = l0 ++ [kb]
         ∧ c_items (cache w) !! kb = Some entry
         ∧ Set_ key value w = (None, pushed key v (removeElement entry w).2)
         ∧ c_evictList (cache (Set_ key value w).2) = key :: l0
         ∧ c_items (cache (Set_ key value w).2)
           = <[key := {| it_key := key; it_value := v;
                         it_expiration := refreshed (cache w) None |}]>
               (delete kb (c_items (cache w)))
         ∧ live (cache (Set_ key value w).2) = live (cache w)
         ∧ trace (Set_ key value w).2
           = trace w ++ evicted_events (cache w) entry
               ++ added_events (cache w) key v).
Proof.
  intros Hwf Hsz. split; [|split].
  - intros e. rewrite Set_eq.
    pose proof (set_result key value w) as Hr.
    destruct (set key value w) as [[item|e'] w1]; simpl in *;
      destruct (serialize (cache w) key value); split; congruence.
  - intros v it Hs Hit. rewrite Set_eq, (set_existing _ _ v it) by done. simpl.
    assert (it_key it = key) as -> by (by apply Hwf).
    split; [done|]. split; [|split; [done|split; [|done]]].
    + unfold list_MoveToFront. rewrite decide_True; [done|].
      apply Hwf. by eauto.
    + apply dom_insert_lookup_L. by eauto.
  - intros v Hs Hit Hfull.
    destruct (set_at_capacity key value v w)
      as (l0 & kb & entry & Hl & He & Hek & Hne & Hkb & Hset & Hl' & Hm' & Htr & Hlive);
      [done|done|done|done|done|].
    exists l0, kb, entry. rewrite Set_eq.
    destruct (set key value w) as [[item|e'] w1]; [|done].
    simpl in *. by inversion Hset; subst.
Qed.

(** C6: BatchSet on more requests than the capacity returns
    [KeyBatchSetOverCacheSize] and leaves the whole world, cache, clocks
    and trace, exactly as it was. *)
Theorem C6_batch_too_large (reqs : list (BatchSetReq K V)) w :
  c_size (cache w) < Z.of_nat (length reqs) →
  BatchSet reqs w = (Some KeyBatchSetOverCacheSize, w).
Proof. intros Hlen. rewrite BatchSet_eq. by rewrite bool_decide_eq_true_2. Qed.

(** *** What a batch leaves of earlier entries *)

(** An entry among the [n] most recently used survives a [set] of another
    key when the capacity exceeds [n], and slips back one place at most. *)
Lemma set_keeps key value w n x :
  wf (cache w) → within_capacity (cache w) →
  Z.of_nat (S n) ≤ c_size (cache w) →
  x ∈ take n (c_evictList (cache w)) → x ≠ key →
  x ∈ take (S n) (c_evictList (cache (set key value w).2))
  ∧ c_items (cache (set key value w).2) !! x = c_items (cache w) !! x.
Proof.
  intros Hwf Hcap Hn Hx Hne.
  destruct (serialize (cache w) key value) as [v|e] eqn:Hs.
  2:{ rewrite (set_refused _ _ e) by done. simpl.
      split; [|done]. by apply (take_elem_mono x n (S n)); [lia|]. }
  destruct (c_items (cache w) !! key) as [it|] eqn:Hit.
  { rewrite (set_existing _ _ v it) by done. simpl.
    split; [by apply list_MoveToFront_take|]. by rewrite lookup_insert_ne. }
  destruct (decide (c_size (cache w) ≤ live (cache w))) as [Hfull|Hroom].
  - destruct (set_at_capacity key value v w)
      as (l0 & kb & entry & Hl & He & Hek & Hkn & Hkb & _ & Hl' & Hm' & _);
      [done|lia|done|done|done|].
    rewrite Hl', Hm'. rewrite wf_live in Hfull by done.
    rewrite Hl, length_app in Hfull. simpl in Hfull.
    rewrite Hl, take_app_le in Hx by lia.
    assert (x ≠ kb) as Hxk.
    { intros ->. apply Hkb. by apply (subseteq_take n l0). }
    split; [simpl; by right|].
    by rewrite lookup_insert_ne, lookup_delete_ne.
  - rewrite wf_live in Hroom by done.
    rewrite (set_new_room _ _ v) by (done || lia). simpl.
    split; [by right|]. by rewrite lookup_insert_ne.
Qed.

(** After a successful [set] the key is at the front of the list and the
    map holds the serialized value under it. *)
Lemma set_front key value v w :
  wf (cache w) →
  serialize (cache w) key value = Ok v →
  head (c_evictList (cache (set key value w).2)) = Some key
  ∧ it_value <$> c_items (cache (set key value w).2) !! key = Some v.
Proof.
  intros Hwf Hs. destruct (c_items (cache w) !! key) as [it|] eqn:Hit.
  - rewrite (set_existing _ _ v it) by done. simpl.
    rewrite lookup_insert_eq. split; [|done].
    apply list_MoveToFront_head. apply Hwf. by eauto.
  - rewrite (set_new _ _ v) by done. simpl. by rewrite lookup_insert_eq.
Qed.

Lemma batchSetStep_keeps req w n x :
  wf (cache w) → within_capacity (cache w) →
  Z.of_nat (S n) ≤ c_size (cache w) →
  x ∈ take n (c_evictList (cache w)) → x ≠ GetKey req →
  x ∈ take (S n) (c_evictList (cache (batchSetStep req w).2))
  ∧ c_items (cache (batchSetStep req w).2) !! x = c_items (cache w) !! x.
Proof.
  intros Hwf Hcap Hn Hx Hne. rewrite batchSetStep_eq.
  destruct (set_keeps (GetKey req) (GetValue req) w n x) as [Hpos Hsame];
    [done..|].
  pose proof (set_result (GetKey req) (GetValue req) w) as Hr.
  destruct (set (GetKey req) (GetValue req) w) as [[item|e] w1]; [|done].
  simpl in *. destruct (GetExpiration req) as [d|]; [|done]. simpl.
  split; [done|]. rewrite lookup_alter_ne; [done|].
  destruct (serialize (cache w) (GetKey req) (GetValue req)); congruence.
Qed.

Lemma batchSetStep_front req v w :
  wf (cache w) →
  serialize (cache w) (GetKey req) (GetValue req) = Ok v →
  (batchSetStep req w).1 = None
  ∧ head (c_evictList (cache (batchSetStep req w).2)) = Some (GetKey req)
  ∧ it_value <$> c_items (cache (batchSetStep req w).2) !! GetKey req = Some v.
Proof.
  intros Hwf Hs. rewrite batchSetStep_eq.
  destruct (set_front (GetKey req) (GetValue req) v w) as [Hhd Hval]; [done..|].
  pose proof (set_result (GetKey req) (GetValue req) w) as Hr. rewrite Hs in Hr.
  destruct (set (GetKey req) (GetValue req) w) as [[item|e] w1]; [|done].
  simpl in *. injection Hr as ->. split; [done|].
  destruct (GetExpiration req) as [d|]; [|done]. simpl. split; [done|].
  rewrite lookup_alter_eq.
  by destruct (c_items (cache w1) !! GetKey req).
Qed.

Lemma batchSetStep_refused req e w :
  serialize (cache w) (GetKey req) (GetValue req) = Err e →
  batchSetStep req w = (Some e, w).
Proof. intros Hs. by rewrite batchSetStep_eq, (set_refused _ _ e). Qed.

Lemma batchSetLoop_cons req reqs w :
  batchSetLoop (req :: reqs) w =
    match batchSetStep req w with
    | (Some e, w1) => (Some e, w1)
    | (None, w1) => batchSetLoop reqs w1
    end.
Proof. simpl. unfold bind. by destruct (batchSetStep req w) as [[e|] w1]. Qed.

Lemma batchSetLoop_app pre rest w :
  batchSetLoop (pre ++ rest) w =
    match batchSetLoop pre w with
    | (Some e, w1) => (Some e, w1)
    | (None, w1) => batchSetLoop rest w1
    end.
Proof.
  revert w. induction pre as [|req pre IH]; intros w; [done|].
  rewrite <- app_comm_cons, !batchSetLoop_cons.
  destruct (batchSetStep req w) as [[e|] w1]; [done|]. apply IH.
Qed.

(** While the capacity is not exhausted, a run of requests keeps every
    entry that it does not write to. *)
Lemma batchSetLoop_keeps reqs w n x :
  wf (cache w) → within_capacity (cache w) →
  Z.of_nat (n + length reqs) ≤ c_size (cache w) →
  x ∈ take n (c_evictList (cache w)) →
  (∀ r, r ∈ reqs → GetKey r ≠ x) →
  x ∈ take (n + length reqs) (c_evictList (cache (batchSetLoop reqs w).2))
  ∧ c_items (cache (batchSetLoop reqs w).2) !! x = c_items (cache w) !! x.
Proof.
  revert w n. induction reqs as [|req reqs IH]; intros w n Hwf Hcap Hn Hx Hkeys.
  { simpl. by rewrite Nat.add_0_r. }
  rewrite batchSetLoop_cons. simpl in Hn.
  assert (x ≠ GetKey req) as Hne.
  { intros ->. by apply (Hkeys req); [left|]. }
  destruct (batchSetStep_keeps req w n x) as [Hpos Hsame]; [done|done|lia|done|done|].
  destruct (batchSetStep_inv req w) as (Hwf1 & Hcap1 & Hcfg1); [lia|done|done|].
  pose proof (config_size _ _ Hcfg1) as Hsz1.
  destruct (batchSetStep req w) as [[e|] w1]; simpl in *.
  { split; [|done]. apply (take_elem_mono x (S n)); [lia|done]. }
  destruct (IH w1 (S n)) as [Hpos2 Hsame2]; [done|done|lia|done| |].
  { intros r Hr. apply Hkeys. by right. }
  replace (n + S (length reqs))%nat with (S n + length reqs)%nat by lia.
  split; [done|]. by rewrite Hsame2.
Qed.

Lemma serialize_config c c' key value :
  config c' = config c → serialize c' key value = serialize c key value.
Proof.
  unfold config, serialize. intros Hcfg.
  assert (c_serializeFunc c' = c_serializeFunc c) as -> by congruence. done.
Qed.

Lemma batchSetStep_success req w :
  (batchSetStep req w).1 = None →
  ∃ v, serialize (cache w) (GetKey req) (GetValue req) = Ok v.
Proof.
  rewrite batchSetStep_eq.
  pose proof (set_result (GetKey req) (GetValue req) w) as Hr.
  destruct (set (GetKey req) (GetValue req) w) as [[item|e] w1]; [|done].
  intros _. simpl in Hr.
  destruct (serialize (cache w) (GetKey req) (GetValue req)); by eauto.
Qed.

(** A run of requests that the hook accepts all succeeds. *)
Lemma batchSetLoop_success reqs w :
  1 ≤ c_size (cache w) → wf (cache w) → within_capacity (cache w) →
  (∀ r, r ∈ reqs → ∃ v, serialize (cache w) (GetKey r) (GetValue r) = Ok v) →
  (batchSetLoop reqs w).1 = None.
Proof.
  revert w. induction reqs as [|req reqs IH]; intros w Hsz Hwf Hcap Hok; [done|].
  rewrite batchSetLoop_cons.
  destruct (Hok req) as [v Hv]; [by left|].
  destruct (batchSetStep_front req v w) as (Hnone & _); [done..|].
  destruct (batchSetStep_inv req w) as (Hwf1 & Hcap1 & Hcfg1); [done..|].
  pose proof (config_size _ _ Hcfg1) as Hsz1.
  destruct (batchSetStep req w) as [[e|] w1]; simpl in *; [done|].
  apply IH; [lia|done|done|].
  intros r Hr. rewrite (serialize_config _ _ _ _ Hcfg1). apply Hok. by right.
Qed.

(** After a successful run every key of the run is among the most
    recently used, as many of them as the run has requests. *)
Lemma batchSetLoop_present reqs w :
  wf (cache w) → within_capacity (cache w) →
  Z.of_nat (length reqs) ≤ c_size (cache w) →
  (batchSetLoop reqs w).1 = None →
  ∀ r, r ∈ reqs →
    GetKey r ∈ take (length reqs) (c_evictList (cache (batchSetLoop reqs w).2)).
Proof.
  revert w. induction reqs as [|req reqs IH]; intros w Hwf Hcap Hlen Hnone r Hr.
  { by apply elem_of_nil in Hr. }
  rewrite batchSetLoop_cons in *. simpl in Hlen.
  destruct (batchSetStep_inv req w) as (Hwf1 & Hcap1 & Hcfg1); [lia|done|done|].
  pose proof (config_size _ _ Hcfg1) as Hsz1.
  pose proof (batchSetStep_success req w) as Hok.
  pose proof (λ v, batchSetStep_front req v w Hwf) as Hfront.
  destruct (batchSetStep req w) as [[e|] w1]; simpl in *; [done|].
  destruct Hok as [v Hv]; [done|]. destruct (Hfront v Hv) as (_ & Hhd & _).
  assert (∀ r', r' ∈ reqs →
            GetKey r' ∈ take (S (length reqs))
                            (c_evictList (cache (batchSetLoop reqs w1).2))) as Hrest.
  { intros r' Hr'. apply (take_elem_mono _ (length reqs)); [lia|].
    apply IH; [done|done|lia|done|done]. }
  apply elem_of_cons in Hr as [->|Hr]; [|by apply Hrest].
  destruct (decide (GetKey req ∈ GetKey <$> reqs)) as [Hin|Hnin].
  - apply list_elem_of_fmap in Hin as (r' & -> & Hr'). by apply Hrest.
  - destruct (batchSetLoop_keeps reqs w1 1 (GetKey req)) as [Hpos _];
      [done|done|lia| | |done].
    + destruct (c_evictList (cache w1)); simplify_eq/=. by left.
    + intros r' Hr' Heq. apply Hnin. apply list_elem_of_fmap. by eauto.
Qed.

(** The deadline and the clock that a successful [set] leaves. *)
Lemma set_deadline key value v w :
  serialize (cache w) key value = Ok v →
  ∃ w1, set key value w = (Ok key, w1)
        ∧ it_expiration <$> c_items (cache w1) !! key
          = Some (refreshed (cache w) (c_items (cache w) !! key ≫= it_expiration))
        ∧ c_clock (cache w1) = clock_after_set (cache w).
Proof.
  intros Hs. destruct (c_items (cache w) !! key) as [it|] eqn:Hit.
  - eexists. split; [by apply (set_existing _ _ v it)|]. simpl.
    by rewrite lookup_insert_eq.
  - eexists. split; [by apply (set_new _ _ v)|]. simpl.
    rewrite lookup_insert_eq. simpl. unfold refreshed, clock_after_set.
    case_bool_decide; [|done].
    destruct (evict_loop_frame (Z.to_nat 1) w) as (Hcfg & Hclk & _).
    change (evict_loop (Z.to_nat 1) w) with (evict 1 w) in Hcfg, Hclk.
    rewrite Hclk.
    assert (c_expiration (cache (evict 1 w).2) = c_expiration (cache w)) as ->;
      [|done].
    unfold config in Hcfg. congruence.
Qed.

(** The deadline one request of a batch leaves on its key. *)
Lemma batchSetStep_deadline req v w :
  serialize (cache w) (GetKey req) (GetValue req) = Ok v →
  it_expiration <$> c_items (cache (batchSetStep req w).2) !! GetKey req
  = Some match GetExpiration req with
         | Some d => Some (time.Add (Clock_peek (clock_after_set (cache w))) d)
         | None => refreshed (cache w)
                     (c_items (cache w) !! GetKey req ≫= it_expiration)
         end.
Proof.
  intros Hs.
  destruct (set_deadline (GetKey req) (GetValue req) v w Hs)
    as (w1 & Hset & Hexp & Hclk).
  rewrite batchSetStep_eq, Hset.
  destruct (GetExpiration req) as [d|]; simpl; [|done].
  rewrite lookup_alter_eq, Hclk.
  destruct (c_items (cache w1) !! GetKey req); by simplify_eq/=.
Qed.

(** A batch that fits stops at the first request the hook refuses. *)
Lemma BatchSet_stops (reqs : list (BatchSetReq K V)) i req e w :
  wf (cache w) → within_capacity (cache w) →
  Z.of_nat (length reqs) ≤ c_size (cache w) →
  reqs !! i = Some req →
  (∀ r, r ∈ take i reqs →
     ∃ v, serialize (cache w) (GetKey r) (GetValue r) = Ok v) →
  serialize (cache w) (GetKey req) (GetValue req) = Err e →
  BatchSet reqs w = (Some e, (batchSetLoop (take i reqs) w).2).
Proof.
  intros Hwf Hcap Hlen Hi Hok Herr.
  pose proof (lookup_lt_Some _ _ _ Hi) as Hlt.
  assert (1 ≤ c_size (cache w)) as Hsz by lia.
  pose proof (batchSetLoop_success (take i reqs) w Hsz Hwf Hcap Hok) as Hnone.
  destruct (batchSetLoop_inv (take i reqs) w Hsz Hwf Hcap) as (_ & _ & Hcfg1).
  rewrite BatchSet_eq, bool_decide_eq_false_2 by lia.
  rewrite <- (take_drop_middle reqs i req) at 1 by done.
  rewrite batchSetLoop_app.
  destruct (batchSetLoop (take i reqs) w) as [[e'|] w1];
    simpl in Hnone, Hcfg1; [done|].
  rewrite batchSetLoop_cons, (batchSetStep_refused _ e); [done|].
  by rewrite (serialize_config _ _ _ _ Hcfg1).
Qed.

(** In a run of accepted requests that fits the capacity, the deadline of
    a key is the one its last request left, from the world in which that
    request was reached. *)
Lemma batchSetLoop_deadline (pre : list (BatchSetReq K V)) j r w :
  wf (cache w) → within_capacity (cache w) →
  Z.of_nat (length pre) ≤ c_size (cache w) →
  (∀ r', r' ∈ pre →
     ∃ v, serialize (cache w) (GetKey r') (GetValue r') = Ok v) →
  pre !! j = Some r →
  (∀ j' r', (j < j')%nat → pre !! j' = Some r' → GetKey r' ≠ GetKey r) →
  it_expiration <$> c_items (cache (batchSetLoop pre w).2) !! GetKey r
  = Some match GetExpiration r with
         | Some d =>
             Some (time.Add
                     (Clock_peek (clock_after_set
                                    (cache (batchSetLoop (take j pre) w).2))) d)
         | None =>
             refreshed (cache (batchSetLoop (take j pre) w).2)
               (c_items (cache (batchSetLoop (take j pre) w).2) !! GetKey r
                  ≫= it_expiration)
         end.
Proof.
  intros Hwf Hcap Hlen Hok Hj Hlast.
  pose proof (lookup_lt_Some _ _ _ Hj) as Hjlt.
  assert (1 ≤ c_size (cache w)) as Hsz by lia.
  rewrite <- (take_drop_middle pre j r) at 1 by done.
  set (before := take j pre). set (after := drop (S j) pre).
  assert (∀ r', r' ∈ before ++ r :: after → r' ∈ pre) as Hsub.
  { intros r'. unfold before, after. by rewrite take_drop_middle. }
  assert ((batchSetLoop before w).1 = None) as Hnone_b.
  { apply batchSetLoop_success; [done..|].
    intros r' Hr'. apply Hok, Hsub. rewrite elem_of_app. by left. }
  destruct (batchSetLoop_inv before w Hsz Hwf Hcap) as (Hwfb & Hcapb & Hcfgb).
  pose proof (config_size _ _ Hcfgb) as Hszb.
  rewrite batchSetLoop_app.
  destruct (batchSetLoop before w) as [[e'|] wb];
    simpl in Hnone_b, Hwfb, Hcapb, Hcfgb, Hszb; [done|].
  cbn [snd]. rewrite batchSetLoop_cons.
  destruct (Hok r) as [v Hv].
  { apply Hsub. rewrite elem_of_app. right. by left. }
  assert (serialize (cache wb) (GetKey r) (GetValue r) = Ok v) as Hvb
    by (by rewrite (serialize_config _ _ _ _ Hcfgb)).
  pose proof (batchSetStep_deadline r v wb Hvb) as Hdl.
  destruct (batchSetStep_front r v wb) as (Hnone_r & Hhd & _); [done..|].
  destruct (batchSetStep_inv r wb) as (Hwfr & Hcapr & Hcfgr); [lia|done|done|].
  pose proof (config_size _ _ Hcfgr) as Hszr.
  destruct (batchSetStep r wb) as [[e'|] wr];
    simpl in Hnone_r, Hhd, Hdl, Hwfr, Hcapr, Hcfgr, Hszr; [done|].
  assert (length after = (length pre - S j)%nat) as Hafter.
  { unfold after. by rewrite length_drop. }
  destruct (batchSetLoop_keeps after wr 1 (GetKey r)) as [_ Hsame];
    [done|done|lia| | |].
  - destruct (c_evictList (cache wr)); simplify_eq/=. by left.
  - intros r' Hr'. unfold after in Hr'.
    apply list_elem_of_lookup in Hr' as [j' Hj'].
    rewrite lookup_drop in Hj'. by apply (Hlast (S j + j')%nat); [lia|].
  - by rewrite Hsame.
Qed.

(** C4: the deadline a write leaves on its key.  Set leaves the default
    duration counted from the clock's reading when the cache has a
    default, and otherwise the deadline the key had before the write:
    none for a new key, the old one for a key already stored.
    SetWithExpire, and a BatchSet request that carries a duration, leave
    that duration counted from the clock's reading at that moment; a
    BatchSet request without one behaves as Set.  This holds of every
    request that a BatchSet within capacity applies, the whole batch or
    the requests before the first that the serialize hook refuses: when
    BatchSet returns, each key they wrote has the deadline that its last
    request left, by the same rule, from the world in which the batch
    reached that request. *)
Theorem C4_deadline key value v w :
  serialize (cache w) key value = Ok v →
  let old := c_items (cache w) !! key ≫= it_expiration in
  let default :=
    match c_expiration (cache w) with
    | Some d => Some (time.Add (Clock_peek (c_clock (cache w))) d)
    | None => old
    end in
  it_expiration <$> c_items (cache (Set_ key value w).2) !! key = Some default
  ∧ (∀ d,
       it_expiration <$> c_items (cache (SetWithExpire key value d w).2) !! key
       = Some (Some (time.Add (Clock_peek (clock_after_set (cache w))) d)))
  ∧ (∀ req,
       GetKey req = key → GetValue req = value → 1 ≤ c_size (cache w) →
       it_expiration <$> c_items (cache (BatchSet [req] w).2) !! key
       = Some match GetExpiration req with
              | Some d => Some (time.Add (Clock_peek (clock_after_set (cache w))) d)
              | None => default
              end)
  ∧ (∀ (reqs : list (BatchSetReq K V)) i j r,
       wf (cache w) → within_capacity (cache w) →
       Z.of_nat (length reqs) ≤ c_size (cache w) →
       (∀ r', r' ∈ take i reqs →
          ∃ v', serialize (cache w) (GetKey r') (GetValue r') = Ok v') →
       (length reqs ≤ i)%nat
       ∨ (∃ req e, reqs !! i = Some req
                   ∧ serialize (cache w) (GetKey req) (GetValue req) = Err e) →
       take i reqs !! j = Some r →
       (∀ j' r', (j < j')%nat → take i reqs !! j' = Some r' →
                 GetKey r' ≠ GetKey r) →
       let wj := (batchSetLoop (take j reqs) w).2 in
       it_expiration <$> c_items (cache (BatchSet reqs w).2) !! GetKey r
       = Some match GetExpiration r with
              | Some d =>
                  Some (time.Add (Clock_peek (clock_after_set (cache wj))) d)
              | None =>
                  match c_expiration (cache w) with
                  | Some d => Some (time.Add (Clock_peek (c_clock (cache wj))) d)
                  | None => c_items (cache wj) !! GetKey r ≫= it_expiration
                  end
              end).
Proof.
  intros Hs old default.
  destruct (set_deadline key value v w Hs) as (w1 & Hset & Hexp & Hclk).
  split; [|split; [|split]].
  - by rewrite Set_eq, Hset.
  - intros d. rewrite SetWithExpire_eq, Hset. simpl.
    rewrite lookup_alter_eq, Hclk.
    destruct (c_items (cache w1) !! key); by simplify_eq/=.
  - intros req <- <- Hsz. rewrite BatchSet_eq.
    rewrite bool_decide_eq_false_2 by (simpl; lia).
    simpl. unfold bind. rewrite batchSetStep_eq, Hset.
    destruct (GetExpiration req) as [d|]; simpl; [|done].
    rewrite lookup_alter_eq, Hclk.
    destruct (c_items (cache w1) !! GetKey req); by simplify_eq/=.
  - intros reqs i j r Hwf Hcap Hlen Hok Hstop Hj Hlast wj.
    pose proof (lookup_lt_Some _ _ _ Hj) as Hjlt.
    rewrite length_take in Hjlt.
    assert (1 ≤ c_size (cache w)) as Hsz by lia.
    assert ((BatchSet reqs w).2 = (batchSetLoop (take i reqs) w).2) as ->.
    { destruct Hstop as [Hall|(req & e & Hi & Herr)].
      - rewrite take_ge by done. rewrite BatchSet_eq.
        by rewrite bool_decide_eq_false_2 by lia.
      - by rewrite (BatchSet_stops reqs i req e). }
    rewrite (batchSetLoop_deadline (take i reqs) j r w); try done.
    2:{ rewrite length_take. lia. }
    rewrite take_take, Nat.min_l by lia. fold wj.
    destruct (batchSetLoop_inv (take j reqs) w Hsz Hwf Hcap) as (_ & _ & Hcfg).
    fold wj in Hcfg. unfold refreshed.
    assert (c_expiration (cache wj) = c_expiration (cache w)) as ->; [|done].
    unfold config in Hcfg. congruence.
Qed.

(** C7: when the batch fits the capacity and request [i] is the first
    whose value the serialize hook refuses, BatchSet returns the hook's
    error at once and leaves the world that the requests before [i]
    produced: every key they wrote is in the store, under the value of
    its last request among them. *)
Theorem C7_batch_partial_failure (reqs : list (BatchSetReq K V)) i req e w :
  wf (cache w) → within_capacity (cache w) →
  Z.of_nat (length reqs) ≤ c_size (cache w) →
  reqs !! i = Some req →
  (∀ r, r ∈ take i reqs →
     ∃ v, serialize (cache w) (GetKey r) (GetValue r) = Ok v) →
  serialize (cache w) (GetKey req) (GetValue req) = Err e →
  (batchSetLoop (take i reqs) w).1 = None
  ∧ BatchSet reqs w = (Some e, (batchSetLoop (take i reqs) w).2)
  ∧ (∀ r, r ∈ take i reqs →
       is_Some (c_items (cache (BatchSet reqs w).2) !! GetKey r))
  ∧ (∀ j r,
       take i reqs !! j = Some r →
       (∀ j' r', (j < j')%nat → take i reqs !! j' = Some r' →
                 GetKey r' ≠ GetKey r) →
       ∃ item,
         c_items (cache (BatchSet reqs w).2) !! GetKey r = Some item
         ∧ serialize (cache w) (GetKey r) (GetValue r) = Ok (it_value item)).
Proof.
  intros Hwf Hcap Hlen Hi Hok Herr.
  pose proof (lookup_lt_Some _ _ _ Hi) as Hlt.
  assert (length (take i reqs) = i) as Hpre by (rewrite length_take; lia).
  assert (1 ≤ c_size (cache w)) as Hsz by lia.
  pose proof (batchSetLoop_success (take i reqs) w Hsz Hwf Hcap Hok) as Hnone.
  destruct (batchSetLoop_inv (take i reqs) w Hsz Hwf Hcap) as (Hwf1 & Hcap1 & Hcfg1).
  assert (BatchSet reqs w = (Some e, (batchSetLoop (take i reqs) w).2)) as Hbatch.
  { rewrite BatchSet_eq, bool_decide_eq_false_2 by lia.
    rewrite <- (take_drop_middle reqs i req) at 1 by done.
    rewrite batchSetLoop_app.
    destruct (batchSetLoop (take i reqs) w) as [[e'|] w1];
      simpl in Hnone, Hcfg1; [done|].
    rewrite batchSetLoop_cons, (batchSetStep_refused _ e); [done|].
    by rewrite (serialize_config _ _ _ _ Hcfg1). }
  split; [done|]. split; [done|]. rewrite Hbatch. simpl. split.
  - intros r Hr. apply Hwf1. apply (subseteq_take (length (take i reqs))).
    apply batchSetLoop_present; [done|done|lia|done|done].
  - intros j r Hj Hlast.
    pose proof (lookup_lt_Some _ _ _ Hj) as Hjlt.
    rewrite <- (take_drop_middle (take i reqs) j r) by done.
    set (before := take j (take i reqs)).
    set (after := drop (S j) (take i reqs)).
    assert (∀ r', r' ∈ before ++ r :: after → r' ∈ take i reqs) as Hsub.
    { intros r'. unfold before, after. by rewrite take_drop_middle. }
    assert ((batchSetLoop before w).1 = None) as Hnone_b.
    { apply batchSetLoop_success; [done..|].
      intros r' Hr'. apply Hok, Hsub. rewrite elem_of_app. by left. }
    destruct (batchSetLoop_inv before w Hsz Hwf Hcap) as (Hwfb & Hcapb & Hcfgb).
    pose proof (config_size _ _ Hcfgb) as Hszb.
    rewrite batchSetLoop_app.
    destruct (batchSetLoop before w) as [[e'|] wb];
      simpl in Hnone_b, Hwfb, Hcapb, Hcfgb, Hszb; [done|].
    rewrite batchSetLoop_cons.
    destruct (Hok r) as [v Hv].
    { apply Hsub. rewrite elem_of_app. right. by left. }
    destruct (batchSetStep_front r v wb) as (Hnone_r & Hhd & Hval); [done| |].
    { by rewrite (serialize_config _ _ _ _ Hcfgb). }
    destruct (batchSetStep_inv r wb) as (Hwfr & Hcapr & Hcfgr); [lia|done|done|].
    pose proof (config_size _ _ Hcfgr) as Hszr.
    destruct (batchSetStep r wb) as [[e'|] wr];
      simpl in Hnone_r, Hhd, Hval, Hwfr, Hcapr, Hcfgr, Hszr; [done|].
    assert (length after = (i - S j)%nat) as Hafter.
    { unfold after. rewrite length_drop. lia. }
    destruct (batchSetLoop_keeps after wr 1 (GetKey r)) as [_ Hsame];
      [done|done|lia| | |].
    + destruct (c_evictList (cache wr)); simplify_eq/=. by left.
    + intros r' Hr'. unfold after in Hr'.
      apply list_elem_of_lookup in Hr' as [j' Hj'].
      rewrite lookup_drop in Hj'. by apply (Hlast (S j + j')%nat); [lia|].
    + rewrite Hsame.
      destruct (c_items (cache wr) !! GetKey r) as [item|]; [|done].
      exists item. split; [done|]. simpl in Hval. by simplify_eq.
Qed.

End Writes.

(** ** Reads: lazy expiration, remaining time, transform failures *)

Section Reads.
Context {K : Type} {EqK : EqDecision K} {CntK : Countable K} {V : Type}.
Variable load :
  K → (LoaderResult V → M K V (result V)) → bool → M K V (result V * bool).
Implicit Types (c : LRUCache K V) (w : World K V) (k key : K) (value v : V).
Implicit Types (m : gmap K (lruItem K V)) (l : list K) (it item : lruItem K V).

Lemma getValue_config key onLoad w :
  config (cache (getValue key onLoad w).2) = config (cache w).
Proof.
  rewrite getValue_eq.
  destruct (c_items (cache w) !! key) as [item|]; [|done].
  destruct (it_expiration item) as [d|]; [|done].
  destruct (time.Before d (Clock_peek (c_clock (cache w)))); [|done].
  by rewrite removeElement_eq.
Qed.

Lemma get_world key onLoad w : (get key onLoad w).2 = (getValue key onLoad w).2.
Proof. rewrite get_eq. by destruct (getValue key onLoad w) as [[v|e] w1]. Qed.

Lemma getWithLoader_none key isWait w :
  c_loaderExpireFunc (cache w) = None →
  getWithLoader load key isWait w = (Err KeyNotFoundError, w).
Proof.
  intros Hl. unfold getWithLoader, bind at 1, read at 1. simpl. by rewrite Hl.
Qed.

(** Get returns what the lookup returned, unless the lookup ended in
    [KeyNotFoundError] and a loader is configured. *)
Lemma Get_eq_get key w :
  (get key false w).1 ≠ Err KeyNotFoundError
  ∨ c_loaderExpireFunc (cache w) = None →
  Get load key w = get key false w.
Proof.
  intros Hcase. unfold Get, bind at 1.
  pose proof (get_world key false w) as Hw.
  pose proof (getValue_config key false w) as Hcfg.
  destruct (get key false w) as [[v|e] w1]; [done|].
  simpl in *. destruct (decide (e = KeyNotFoundError)) as [->|Hne].
  - destruct Hcase as [?|Hl]; [done|].
    rewrite getWithLoader_none; [done|]. subst w1.
    unfold config in Hcfg. congruence.
  - by destruct e.
Qed.

(** C2: a value-returning access to a key whose deadline lies strictly
    before the reading of the cache's clock reports the key as not found
    and removes its entry from the map and from the recency list; Get
    itself does so when no loader is configured.  Has on a key whose
    deadline lies strictly before the reading of the system clock answers
    false and leaves the cache and the trace as they were. *)
Theorem C2_lazy_expiration key item D onLoad w :
  wf (cache w) →
  c_items (cache w) !! key = Some item →
  it_expiration item = Some D →
  (D < Clock_peek (c_clock (cache w)) →
     (getValue key onLoad w).1 = Err KeyNotFoundError
     ∧ c_items (cache (getValue key onLoad w).2) = delete key (c_items (cache w))
     ∧ c_evictList (cache (getValue key onLoad w).2)
       = list_Remove key (c_evictList (cache w))
     ∧ (key ∉ c_evictList (cache (getValue key onLoad w).2))
     ∧ get key onLoad w = getValue key onLoad w
     ∧ (c_loaderExpireFunc (cache w) = None →
        Get load key w = getValue key false w))
  ∧ (D < Clock_peek (sysclock w) →
     (Has key w).1 = false
     ∧ cache (Has key w).2 = cache w
     ∧ trace (Has key w).2 = trace w
     ∧ c_items (cache (Has key w).2) !! key = Some item
     ∧ key ∈ c_evictList (cache (Has key w).2)).
Proof.
  intros Hwf Hit HD. assert (it_key item = key) as Hk by (by apply Hwf).
  split.
  - intros Hpast.
    assert (∀ o, getValue key o w
              = (Err KeyNotFoundError, missed o (removeElement item (ticked w)).2))
      as Hgv.
    { intros o. rewrite getValue_eq, Hit, HD. unfold time.Before.
      by rewrite (proj2 (Z.ltb_lt _ _) Hpast). }
    assert (∀ o, get key o w = getValue key o w) as Hget.
    { intros o. by rewrite get_eq, Hgv. }
    rewrite Hgv, removeElement_eq. simpl. rewrite Hk.
    split; [done|]. split; [done|]. split; [done|].
    split; [rewrite list_Remove_elem; tauto|].
    split; [by rewrite Hget, Hgv, removeElement_eq|].
    intros Hl. rewrite Get_eq_get by (by right).
    by rewrite Hget, Hgv, removeElement_eq.
  - intros Hpast. rewrite Has_eq. unfold alive, expired_at.
    rewrite Hit, HD. simpl.
    unfold time.Before. rewrite (proj2 (Z.ltb_lt _ _) Hpast).
    split; [done|]. split; [done|]. split; [done|]. split; [done|].
    apply Hwf. by eauto.
Qed.

(** C5: GetKeyTTL on a stored key without a deadline returns
    [KeyNotSetWithExpireError]; on a stored key with a deadline it returns
    the deadline minus the clock's reading, which is negative once the
    deadline has passed, and leaves the entry in the map and in the list;
    on a key that is not stored it returns [KeyNotFoundError]. *)
Theorem C5_GetKeyTTL key w :
  (c_items (cache w) !! key = None →
     GetKeyTTL key w = (Err KeyNotFoundError, w))
  ∧ (∀ item,
       c_items (cache w) !! key = Some item → it_expiration item = None →
       GetKeyTTL key w = (Err KeyNotSetWithExpireError, w))
  ∧ (∀ item D,
       c_items (cache w) !! key = Some item → it_expiration item = Some D →
       let now := Clock_peek (c_clock (cache w)) in
       (GetKeyTTL key w).1 = Ok (time.Sub D now)
       ∧ (time.minDuration ≤ D - now ≤ time.maxDuration → time.Sub D now = D - now)
       ∧ (D < now → time.Sub D now < 0)
       ∧ c_items (cache (GetKeyTTL key w).2) = c_items (cache w)
       ∧ c_evictList (cache (GetKeyTTL key w).2) = c_evictList (cache w)
       ∧ trace (GetKeyTTL key w).2 = trace w).
Proof.
  split; [|split].
  - intros Hit. by rewrite GetKeyTTL_eq, Hit.
  - intros item Hit Hexp. by rewrite GetKeyTTL_eq, Hit, Hexp.
  - intros item D Hit Hexp now. rewrite GetKeyTTL_eq, Hit, Hexp. simpl.
    split; [done|]. split; [|split; [|done]].
    + intros [Hlo Hhi]. unfold time.Sub. simpl.
      fold now. destruct (Z.ltb_spec (D - now) time.minDuration); [lia|].
      destruct (Z.ltb_spec time.maxDuration (D - now)); [lia|done].
    + intros Hpast. unfold time.Sub. simpl.
      destruct (Z.ltb_spec (D - now) time.minDuration); [done|].
      destruct (Z.ltb_spec time.maxDuration (D - now)); [|lia].
      unfold time.maxDuration in *. lia.
Qed.

(** C8: a Set whose serialize hook fails returns the hook's error and
    leaves the whole world as it was.  A lookup of a stored, unexpired key
    whose deserialize hook fails returns the hook's error with the map
    unchanged, so that the entry keeps its value, its deadline and its
    place in the store, but with the key already moved to the front of
    the recency list and the hit already counted; Get hands that error
    to its caller unless it is [KeyNotFoundError] and a loader is
    configured. *)
Theorem C8_transform_failure key w :
  (∀ value e,
     serialize (cache w) key value = Err e → Set_ key value w = (Some e, w))
  ∧ (∀ item e,
       c_items (cache w) !! key = Some item →
       expired_at (Clock_peek (c_clock (cache w))) item = false →
       deserialize (cache w) key (it_value item) = Err e →
       (get key false w).1 = Err e
       ∧ c_items (cache (get key false w).2) = c_items (cache w)
       ∧ c_evictList (cache (get key false w).2)
         = list_MoveToFront key (c_evictList (cache w))
       ∧ (∃ t, trace (get key false w).2 = t ++ [IncrHitCount])
       ∧ (e ≠ KeyNotFoundError ∨ c_loaderExpireFunc (cache w) = None →
          Get load key w = get key false w)).
Proof.
  split.
  - intros value e Hs. by rewrite Set_eq, (set_refused _ _ e).
  - intros item e Hit Hexp Hde.
    assert (∃ w1, getValue key false w = (Ok (it_value item), w1)
              ∧ c_items (cache w1) = c_items (cache w)
              ∧ c_evictList (cache w1) = list_MoveToFront key (c_evictList (cache w))
              ∧ (∃ t, trace w1 = t ++ [IncrHitCount])
              ∧ deserialize (cache w1) key (it_value item) = Err e)
      as (w1 & Hgv & Hm & Hl & Ht & Hde1).
    { rewrite getValue_eq, Hit. unfold expired_at in Hexp.
      destruct (it_expiration item) as [d|].
      - rewrite Hexp. eexists. split; [done|]. simpl. by eauto.
      - eexists. split; [done|]. simpl. by eauto. }
    assert (get key false w = (Err e, w1)) as Hget
      by (by rewrite get_eq, Hgv, Hde1).
    rewrite Hget. simpl. do 4 (split; [done|]).
    intros Hcase. rewrite <- Hget. apply Get_eq_get. rewrite Hget. simpl.
    destruct Hcase as [Hne|Hl0]; [left; congruence|by right].
Qed.

Lemma batchGetLoop_eq checkExpired now (keys : list K) (items : gmap K V) w :
  (∀ k, k ∈ keys → is_Some (c_items (cache w) !! k))
  ∨ c_loaderExpireFunc (cache w) = None →
  (batchGetLoop load checkExpired now keys items w).2 = w
  ∧ ∀ k, (batchGetLoop load checkExpired now keys items w).1 !! k
         = if decide (k ∈ keys)
           then match reported checkExpired now (cache w) k with
                | Some v => Some v
                | None => items !! k
                end
           else items !! k.
Proof.
  revert items. induction keys as [|k0 keys IH]; intros items Hcase.
  { split; [done|]. intros k. unfold batchGetLoop, ret. simpl fst.
    case_decide as Hin; [by apply elem_of_nil in Hin|done]. }
  set (items' := match reported checkExpired now (cache w) k0 with
                 | Some v => <[k0 := v]> items
                 | None => items
                 end).
  assert (batchGetLoop load checkExpired now (k0 :: keys) items w
          = batchGetLoop load checkExpired now keys items' w) as ->.
  { simpl. unfold bind at 1, read at 1. simpl. unfold bind at 1.
    subst items'. unfold reported.
    destruct (c_items (cache w) !! k0) as [item|] eqn:Hk0.
    - unfold bind at 1. rewrite getAllLoop_step.
      unfold ret at 1. by destruct (checkExpired && expired_at now item).
    - unfold bind at 1. rewrite getWithLoader_none; [done|].
      destruct Hcase as [Hall|Hl]; [|done].
      destruct (Hall k0) as [? ?]; [by left|congruence]. }
  destruct (IH items') as [-> Hk].
  { destruct Hcase as [Hall|Hl]; [left|by right].
    intros k Hin. apply Hall. by right. }
  split; [done|]. intros k. rewrite Hk.
  subst items'. destruct (decide (k = k0)) as [->|Hne].
  - rewrite (decide_True (P := k0 ∈ k0 :: keys)) by left.
    destruct (reported checkExpired now (cache w) k0) as [v|];
      case_decide; by rewrite ?lookup_insert_eq.
  - assert (match reported checkExpired now (cache w) k0 with
            | Some v => <[k0:=v]> items
            | None => items
            end !! k = items !! k) as ->.
    { destruct (reported _ _ _ k0); by rewrite ?lookup_insert_ne. }
    destruct (decide (k ∈ keys)) as [Hin|Hnin].
    + by rewrite decide_True by (by right).
    + rewrite decide_False; [done|]. rewrite elem_of_cons. tauto.
Qed.

Lemma BatchGet_eq checkExpired (keys : list K) w :
  (∀ k, k ∈ keys → is_Some (c_items (cache w) !! k))
  ∨ c_loaderExpireFunc (cache w) = None →
  (BatchGet load checkExpired keys w).2 = sys_ticked w
  ∧ ∀ k, (BatchGet load checkExpired keys w).1 !! k
         = if decide (k ∈ keys)
           then reported checkExpired (Clock_peek (sysclock w)) (cache w) k
           else None.
Proof.
  intros Hcase. unfold BatchGet, bind, time_Now. simpl.
  destruct (batchGetLoop_eq checkExpired (Clock_peek (sysclock w)) keys ∅
              (sys_ticked w) Hcase) as [Hw Hk].
  split; [done|]. intros k. unfold sys_ticked in Hk. rewrite Hk.
  case_decide; [|done]. simpl.
  by destruct (reported _ _ _ k).
Qed.

Lemma elem_of_keys k (m : gmap K (lruItem K V)) :
  k ∈ (map_to_list m).*1 ↔ is_Some (m !! k).
Proof.
  rewrite list_elem_of_fmap. split.
  - intros ([k' it] & -> & Hin). apply elem_of_map_to_list in Hin. by eauto.
  - intros [it Hit]. exists (k, it). split; [done|]. by apply elem_of_map_to_list.
Qed.

(** C10: Has, Keys, GetALL, Len and BatchGet with [checkExpired] compare
    every deadline with one reading of the system clock and leave the
    cache, its clock included, untouched (BatchGet: on keys that are
    stored, or without a loader); Set, the lookup behind Get and GetKeyTTL
    read the cache's own clock and never the system clock.  So when the
    two clocks read on different sides of a deadline, Has and Get disagree
    about the entry.  A Set that the serialize hook accepts succeeds and,
    in a cache with a default duration, leaves on its key that duration
    counted from the reading of the cache's own clock, which it reads
    exactly once; without a default duration it reads no clock and leaves
    the deadline the key had. *)
Theorem C10_clocks key value (keys : list K) w :
  let sys := Clock_peek (sysclock w) in
  let now := Clock_peek (c_clock (cache w)) in
  Has key w = (alive sys (cache w) key, sys_ticked w)
  ∧ ((Keys true w).2 = sys_ticked w
     ∧ ∀ k, k ∈ (Keys true w).1 ↔ alive sys (cache w) k = true)
  ∧ ((GetALL true w).2 = sys_ticked w
     ∧ ∀ k, (GetALL true w).1 !! k = reported true sys (cache w) k)
  ∧ Len true w
    = (Z.of_nat (length (filter (λ k, alive sys (cache w) k = true)
                           (map_to_list (c_items (cache w))).*1)),
       sys_ticked w)
  ∧ ((∀ k, k ∈ keys → is_Some (c_items (cache w) !! k))
     ∨ c_loaderExpireFunc (cache w) = None →
     (BatchGet load true keys w).2 = sys_ticked w
     ∧ ∀ k, (BatchGet load true keys w).1 !! k
            = if decide (k ∈ keys) then reported true sys (cache w) k else None)
  ∧ sysclock (Set_ key value w).2 = sysclock w
  ∧ sysclock (get key false w).2 = sysclock w
  ∧ sysclock (GetKeyTTL key w).2 = sysclock w
  ∧ (∀ item D,
       c_items (cache w) !! key = Some item → it_expiration item = Some D →
       (Has key w).1 = negb (time.Before D sys)
       ∧ (getValue key false w).1
         = (if time.Before D now then Err KeyNotFoundError
            else Ok (it_value item))
       ∧ (GetKeyTTL key w).1 = Ok (time.Sub D now)
       ∧ (now ≤ D < sys →
          (Has key w).1 = false
          ∧ (getValue key false w).1 = Ok (it_value item)
          ∧ (c_deserializeFunc (cache w) = None →
             (Get load key w).1 = Ok (it_value item)))
       ∧ (sys ≤ D < now →
          (Has key w).1 = true
          ∧ (getValue key false w).1 = Err KeyNotFoundError
          ∧ (c_loaderExpireFunc (cache w) = None →
             (Get load key w).1 = Err KeyNotFoundError)))
  ∧ (∀ v,
       serialize (cache w) key value = Ok v →
       (Set_ key value w).1 = None
       ∧ it_expiration <$> c_items (cache (Set_ key value w).2) !! key
         = Some match c_expiration (cache w) with
                | Some d => Some (time.Add now d)
                | None => c_items (cache w) !! key ≫= it_expiration
                end
       ∧ c_clock (cache (Set_ key value w).2)
         = match c_expiration (cache w) with
           | Some _ => Clock_tick (c_clock (cache w))
           | None => c_clock (cache w)
           end).
Proof.
  intros sys now. split; [by rewrite Has_eq|]. split.
  { rewrite Keys_eq. split; [done|]. intros k. simpl.
    rewrite list_elem_of_filter, elem_of_keys. split; [tauto|].
    intros Hk. split; [done|]. unfold alive in Hk.
    destruct (c_items (cache w) !! k); by eauto. }
  split; [apply GetALL_eq|]. split; [by rewrite Len_eq|].
  split; [apply BatchGet_eq|].
  split; [|split; [|split; [|split]]].
  - rewrite Set_eq. pose proof (set_sysclock key value w) as Hs.
    by destruct (set key value w) as [[item|e] w1].
  - rewrite get_world, getValue_eq.
    destruct (c_items (cache w) !! key) as [item|]; [|done].
    destruct (it_expiration item) as [d|]; [|done].
    destruct (time.Before d (Clock_peek (c_clock (cache w)))); [|done].
    by rewrite removeElement_eq.
  - rewrite GetKeyTTL_eq.
    destruct (c_items (cache w) !! key) as [item|]; [|done].
    by destruct (it_expiration item).
  - intros item D Hit HD.
    assert ((Has key w).1 = negb (time.Before D sys)) as HHas.
    { rewrite Has_eq. unfold alive, expired_at. by rewrite Hit, HD. }
    assert ((getValue key false w).1
            = if time.Before D now then Err KeyNotFoundError
              else Ok (it_value item)) as Hgv.
    { rewrite getValue_eq, Hit, HD. fold now. by destruct (time.Before D now). }
    split; [done|]. split; [done|].
    split; [by rewrite GetKeyTTL_eq, Hit, HD|].
    rewrite HHas, Hgv. unfold time.Before. split.
    + intros [Hlo Hhi].
      rewrite (proj2 (Z.ltb_lt _ _) Hhi), (proj2 (Z.ltb_ge _ _) Hlo).
      split; [done|]. split; [done|]. intros Hde.
      assert (get key false w = (Ok (it_value item), (getValue key false w).2))
        as Hget.
      { pose proof (getValue_config key false w) as Hcfg.
        rewrite get_eq. unfold time.Before in Hgv.
        rewrite (proj2 (Z.ltb_ge _ _) Hlo) in Hgv.
        destruct (getValue key false w) as [[v|e] w1]; simpl in *; [|done].
        unfold deserialize.
        assert (c_deserializeFunc (cache w1) = None) as ->; [|congruence].
        unfold config in Hcfg. congruence. }
      rewrite Get_eq_get; rewrite Hget; [done|by left].
    + intros [Hlo Hhi].
      rewrite (proj2 (Z.ltb_lt _ _) Hhi), (proj2 (Z.ltb_ge _ _) Hlo).
      split; [done|]. split; [done|]. intros Hl.
      rewrite Get_eq_get by (by right). rewrite get_eq.
      unfold time.Before in Hgv. rewrite (proj2 (Z.ltb_lt _ _) Hhi) in Hgv.
      by destruct (getValue key false w) as [[v|e] w1]; simplify_eq/=.
  - intros v Hs.
    destruct (set_deadline key value v w Hs) as (w1 & Hset & Hexp & Hclk).
    rewrite Set_eq, Hset. simpl. by rewrite Hexp, Hclk.
Qed.

End Reads.

(** ** The statements on concrete caches *)

(** Scenario 1 of the specification, call by call: "a" is evicted when "c"
    comes in, and the eviction callback runs before the added callback. *)
Example scenario1 :
  c_evictList (cache (run Ex.three_sets Ex.fresh)) = ["c"; "b"]
  ∧ c_items (cache (run Ex.three_sets Ex.fresh)) !! "a" = None
  ∧ trace (run Ex.three_sets Ex.fresh)
    = [AddedFunc "a" 1; AddedFunc "b" 2; EvictedFunc "a" 1; AddedFunc "c" 3].
Proof. by vm_compute. Qed.

(** The capacity bound of C1 on scenario 1. *)
Lemma C1_capacity_witness :
  1 ≤ cb_size (Ex.builder 2 None None None)
  ∧ live (cache (run Ex.three_sets Ex.fresh)) ≤ 2.
Proof.
  split; [by vm_compute|].
  apply (C1_capacity (Ex.builder 2 None None None) (Ex.still 0) Ex.three_sets).
  by vm_compute.
Defined.

(** C2 on scenario 2: "x" was stored for 50 and both clocks read 100. *)
Lemma C2_lazy_expiration_witness :
  wf (cache Ex.aged)
  ∧ c_items (cache Ex.aged) !! "x"
    = Some {| it_key := "x"; it_value := 1; it_expiration := Some 50 |}
  ∧ 50 < Clock_peek (c_clock (cache Ex.aged))
  ∧ 50 < Clock_peek (sysclock Ex.aged)
  ∧ (getValue "x" false Ex.aged).1 = Err KeyNotFoundError
  ∧ c_items (cache (getValue "x" false Ex.aged).2) = delete "x" (c_items (cache Ex.aged))
  ∧ Get Ex.no_load "x" Ex.aged = getValue "x" false Ex.aged
  ∧ (Has "x" Ex.aged).1 = false
  ∧ cache (Has "x" Ex.aged).2 = cache Ex.aged.
Proof.
  assert (wf (cache Ex.aged)) as Hwf by (by apply reachable_inv; vm_compute).
  assert (50 < Clock_peek (c_clock (cache Ex.aged))) as Hclk by (by vm_compute).
  assert (50 < Clock_peek (sysclock Ex.aged)) as Hsys by (by vm_compute).
  destruct (C2_lazy_expiration Ex.no_load "x"
              {| it_key := "x"; it_value := 1; it_expiration := Some 50 |}
              50 false Ex.aged Hwf eq_refl eq_refl) as [Hget Hhas].
  destruct (Hget Hclk) as (H1 & H2 & _ & _ & _ & H3).
  destruct (Hhas Hsys) as (H4 & H5 & _).
  exact (conj Hwf (conj eq_refl (conj Hclk (conj Hsys
           (conj H1 (conj H2 (conj (H3 eq_refl) (conj H4 H5)))))))).
Defined.

(** C3 on the full cache of scenario 1: the third key evicts "a". *)
Lemma C3_set_witness :
  wf (cache Ex.two) ∧ 1 ≤ c_size (cache Ex.two)
  ∧ (∀ e, (Set_ "c" 3 Ex.two).1 = Some e ↔ serialize (cache Ex.two) "c" 3 = Err e)
  ∧ ∃ l0 kb entry,
      c_evictList (cache Ex.two) = l0 ++ [kb]
      ∧ c_items (cache Ex.two) !! kb = Some entry
      ∧ c_evictList (cache (Set_ "c" 3 Ex.two).2) = "c" :: l0
      ∧ live (cache (Set_ "c" 3 Ex.two).2) = live (cache Ex.two).
Proof.
  assert (wf (cache Ex.two)) as Hwf by (by apply reachable_inv; vm_compute).
  assert (1 ≤ c_size (cache Ex.two)) as Hsz by (by vm_compute).
  destruct (C3_set "c" 3 Ex.two Hwf Hsz) as (Hfail & _ & Hfull).
  split; [done|]. split; [done|]. split; [done|].
  destruct (Hfull 3) as (l0 & kb & entry & Hl & He & _ & Hl' & _ & Hlive & _);
    [done|done|by vm_compute|].
  by exists l0, kb, entry.
Defined.

(** C4 on a key that has a deadline, in a cache without default
    expiration: a plain Set keeps the deadline. *)
Lemma C4_deadline_witness :
  serialize (cache Ex.timed) "a" 2 = Ok 2
  ∧ it_expiration <$> c_items (cache (Set_ "a" 2 Ex.timed).2) !! "a" = Some (Some 10)
  ∧ it_expiration <$> c_items (cache (SetWithExpire "a" 2 7 Ex.timed).2) !! "a"
    = Some (Some 7)
  ∧ it_expiration <$> c_items (cache (BatchSet Ex.batch3 Ex.paced).2) !! "y"
    = Some (Some 25)
  ∧ it_expiration <$> c_items (cache (BatchSet Ex.batch3 Ex.paced).2) !! "z"
    = Some (Some 60)
  ∧ it_expiration <$> c_items (cache (BatchSet Ex.batch_bad Ex.paced).2) !! "x"
    = Some (Some 30).
Proof.
  split; [done|].
  destruct (C4_deadline "a" 2 2 Ex.timed eq_refl) as (Hset & Hwith & _).
  split; [exact Hset|]. split; [exact (Hwith 7)|].
  assert (wf (cache Ex.paced) ∧ within_capacity (cache Ex.paced)) as [Hwf Hcap].
  { destruct (reachable_inv
                (Ex.builder_on (Ex.ticking 10) 3 (Some 30)
                   (Some Ex.refuse_negative) None)
                (Ex.still 0) []) as (? & ? & _); [by vm_compute|done]. }
  destruct (C4_deadline "a" 2 2 Ex.paced eq_refl) as (_ & _ & _ & Hbatch).
  assert (∀ r, r ∈ Ex.batch3 →
            ∃ v, serialize (cache Ex.paced) (GetKey r) (GetValue r) = Ok v)
    as Hok.
  { intros r Hr. unfold Ex.batch3 in Hr.
    repeat (apply elem_of_cons in Hr as [->|Hr]); [by eexists..|].
    by apply elem_of_nil in Hr. }
  split; [|split].
  - etrans; [|by vm_compute].
    apply (Hbatch Ex.batch3 3%nat 1%nat
             {| GetKey := "y"; GetValue := 8; GetExpiration := Some 5 |});
      [done|done|by vm_compute|done|left; simpl; lia|done|].
    intros [|[|[|j']]] r' Hlt Hj'; [lia|lia| |done].
    by injection Hj' as <-.
  - etrans; [|by vm_compute].
    apply (Hbatch Ex.batch3 3%nat 2%nat
             {| GetKey := "z"; GetValue := 9; GetExpiration := None |});
      [done|done|by vm_compute|done|left; simpl; lia|done|].
    intros [|[|[|j']]] r' Hlt Hj'; [lia|lia|lia|done].
  - etrans; [|by vm_compute].
    apply (Hbatch Ex.batch_bad 1%nat 0%nat
             {| GetKey := "x"; GetValue := 7; GetExpiration := None |});
      [done|done|by vm_compute| | |done|].
    + intros r Hr. apply list_elem_of_singleton in Hr as ->. by exists 7.
    + right. by eexists _, (CallerError "negative").
    + intros [|j'] r' Hlt Hj'; [lia|done].
Defined.

(** The claim C4 as first stated fails there: the cache has no default
    expiration, Set succeeds, and the entry does not end up without a
    deadline. *)
Lemma C4_counterexample :
  c_expiration (cache Ex.timed) = None
  ∧ (Set_ "a" 2 Ex.timed).1 = None
  ∧ ¬ (it_expiration <$> c_items (cache (Set_ "a" 2 Ex.timed).2) !! "a" = Some None).
Proof. split; [done|]. split; [done|]. by vm_compute. Qed.

(** C5 on the same key: 10 remain at instant 0. *)
Lemma C5_GetKeyTTL_witness :
  (GetKeyTTL "a" Ex.timed).1 = Ok 10
  ∧ c_items (cache (GetKeyTTL "a" Ex.timed).2) = c_items (cache Ex.timed)
  ∧ GetKeyTTL "b" Ex.timed = (Err KeyNotFoundError, Ex.timed)
  ∧ GetKeyTTL "a" Ex.two = (Err KeyNotSetWithExpireError, Ex.two).
Proof.
  destruct (C5_GetKeyTTL "a" Ex.timed) as (_ & _ & Hd).
  destruct (Hd {| it_key := "a"; it_value := 1; it_expiration := Some 10 |} 10
              eq_refl eq_refl) as (H1 & _ & _ & H2 & _).
  split; [exact H1|]. split; [exact H2|]. split.
  - by apply (C5_GetKeyTTL "b" Ex.timed).
  - by apply (C5_GetKeyTTL "a" Ex.two)
      with {| it_key := "a"; it_value := 1; it_expiration := None |}.
Defined.

(** C6: three requests for a cache of two. *)
Lemma C6_batch_too_large_witness :
  c_size (cache Ex.two) < Z.of_nat (length Ex.batch3)
  ∧ BatchSet Ex.batch3 Ex.two = (Some KeyBatchSetOverCacheSize, Ex.two).
Proof.
  split; [by vm_compute|]. apply C6_batch_too_large. by vm_compute.
Defined.

(** C7: the hook refuses the second of three requests; "x", written by
    the first, stays. *)
Lemma C7_batch_partial_failure_witness :
  wf (cache Ex.picky) ∧ within_capacity (cache Ex.picky)
  ∧ Z.of_nat (length Ex.batch_bad) ≤ c_size (cache Ex.picky)
  ∧ BatchSet Ex.batch_bad Ex.picky
    = (Some (CallerError "negative"),
       (batchSetLoop (take 1 Ex.batch_bad) Ex.picky).2)
  ∧ it_value <$> c_items (cache (BatchSet Ex.batch_bad Ex.picky).2) !! "x" = Some 7
  ∧ c_items (cache (BatchSet Ex.batch_bad Ex.picky).2) !! "z" = None.
Proof.
  assert (wf (cache Ex.picky) ∧ within_capacity (cache Ex.picky)) as [Hwf Hcap].
  { destruct (reachable_inv (Ex.builder 3 None (Some Ex.refuse_negative) None)
                (Ex.still 0) []) as (? & ? & _); [by vm_compute|done]. }
  assert (Z.of_nat (length Ex.batch_bad) ≤ c_size (cache Ex.picky)) as Hlen
    by (by vm_compute).
  destruct (C7_batch_partial_failure Ex.batch_bad 1
              {| GetKey := "y"; GetValue := -1; GetExpiration := None |}
              (CallerError "negative") Ex.picky Hwf Hcap Hlen eq_refl)
    as (_ & Hbatch & _ & Hlast).
  { intros r Hr. apply list_elem_of_singleton in Hr as ->. by exists 7. }
  { done. }
  split; [done|]. split; [done|]. split; [done|]. split; [done|]. split.
  - destruct (Hlast 0%nat {| GetKey := "x"; GetValue := 7; GetExpiration := None |}
                eq_refl) as (item & Hitem & Hval).
    { intros [|j'] r' Hlt Hj'; [lia|done]. }
    simpl in Hitem. rewrite Hitem. simpl. by injection Hval as <-.
  - by vm_compute.
Defined.

(** C8 behind a deserialize hook that refuses everything: Get returns the
    hook's error, the map is as before, and "a" has moved to the front. *)
Lemma C8_transform_failure_witness :
  (Get Ex.no_load "a" Ex.guarded).1 = Err (CallerError "refused")
  ∧ c_items (cache (Get Ex.no_load "a" Ex.guarded).2) = c_items (cache Ex.guarded)
  ∧ c_evictList (cache (Get Ex.no_load "a" Ex.guarded).2)
    = list_MoveToFront "a" (c_evictList (cache Ex.guarded)).
Proof.
  destruct (C8_transform_failure Ex.no_load "a" Ex.guarded) as [_ Hget].
  destruct (Hget {| it_key := "a"; it_value := 1; it_expiration := None |}
              (CallerError "refused") eq_refl eq_refl eq_refl)
    as (H1 & H2 & H3 & _ & H4).
  rewrite H4 by (by left). done.
Defined.

(** The claim C8 as first stated fails there: the deserialize hook makes
    Get fail, and the recency list is not what it was. *)
Lemma C8_counterexample :
  (Get Ex.no_load "a" Ex.guarded).1 = Err (CallerError "refused")
  ∧ c_evictList (cache Ex.guarded) = ["b"; "a"]
  ∧ c_evictList (cache (Get Ex.no_load "a" Ex.guarded).2) = ["a"; "b"]
  ∧ ¬ (c_evictList (cache (Get Ex.no_load "a" Ex.guarded).2)
       = c_evictList (cache Ex.guarded)).
Proof. by vm_compute. Qed.

(** C10 under a simulated clock that stands at 0 while the system clock
    reads 100: for "x", due at 50, Has answers false and Get finds it; and
    under a clock that stands at 7 with a default duration of 30, Set
    leaves the deadline 37. *)
Lemma C10_clocks_witness :
  (Has "x" Ex.simulated).1 = false
  ∧ (Get Ex.no_load "x" Ex.simulated).1 = Ok 1
  ∧ (GetKeyTTL "x" Ex.simulated).1 = Ok 50
  ∧ serialize (cache Ex.lagging) "k" 1 = Ok 1
  ∧ (Set_ "k" 1 Ex.lagging).1 = None
  ∧ it_expiration <$> c_items (cache (Set_ "k" 1 Ex.lagging).2) !! "k"
    = Some (Some 37).
Proof.
  destruct (C10_clocks Ex.no_load "x" 0 [] Ex.simulated)
    as (_ & _ & _ & _ & _ & _ & _ & _ & Hx & _).
  destruct (Hx {| it_key := "x"; it_value := 1; it_expiration := Some 50 |} 50
              eq_refl eq_refl) as (_ & _ & Httl & Hdis & _).
  destruct Hdis as (Hhas & _ & Hget); [by vm_compute|].
  split; [exact Hhas|]. split; [by apply Hget|]. split; [exact Httl|].
  split; [done|].
  destruct (C10_clocks Ex.no_load "k" 1 [] Ex.lagging)
    as (_ & _ & _ & _ & _ & _ & _ & _ & _ & Hset).
  destruct (Hset 1 eq_refl) as (Hnone & Hexp & _).
  split; [exact Hnone|exact Hexp].
Defined.

(** ** Removal and eviction *)

Section Removal.
Context {K : Type} {EqK : EqDecision K} {CntK : Countable K} {V : Type}.
Implicit Types (c : LRUCache K V) (w : World K V) (k key : K) (value v : V).
Implicit Types (m : gmap K (lruItem K V)) (l : list K) (it item entry : lruItem K V).

Lemma removeElement_wf entry w :
  wf (cache w) → wf (cache (removeElement entry w).2).
Proof. intros Hwf. rewrite removeElement_eq. by apply wf_store_remove. Qed.

(** X1: Remove of a stored key answers true, takes the key out of the map
    and out of the recency list, leaves every other entry as it was, calls
    the evicted callback with the entry, and a second Remove then answers
    false; Remove of a key that is not stored answers false and changes
    nothing. *)
Theorem X1_Remove key w :
  wf (cache w) →
  (∀ item,
     c_items (cache w) !! key = Some item →
     (Remove key w).1 = true
     ∧ c_items (cache (Remove key w).2) = delete key (c_items (cache w))
     ∧ c_evictList (cache (Remove key w).2) = list_Remove key (c_evictList (cache w))
     ∧ (key ∉ c_evictList (cache (Remove key w).2))
     ∧ live (cache (Remove key w).2) = live (cache w) - 1
     ∧ trace (Remove key w).2 = trace w ++ evicted_events (cache w) item
     ∧ wf (cache (Remove key w).2)
     ∧ Remove key (Remove key w).2 = (false, (Remove key w).2))
  ∧ (c_items (cache w) !! key = None → Remove key w = (false, w)).
Proof.
  intros Hwf. unfold Remove. split.
  - intros item Hit. assert (it_key item = key) as Hk by (by apply Hwf).
    rewrite (remove_eq key w), Hit, removeElement_eq.
    unfold wf, live, without. simpl. rewrite Hk.
    split; [done|]. split; [done|]. split; [done|].
    split; [rewrite list_Remove_elem; tauto|]. split.
    { rewrite map_size_delete_Some by eauto.
      assert (size (c_items (cache w)) ≠ 0%nat); [|lia].
      apply map_size_ne_0_lookup_2 with key. by eauto. }
    split; [done|]. split; [by apply wf_store_remove|].
    rewrite remove_eq. simpl. by rewrite lookup_delete_eq.
  - intros Hit. by rewrite remove_eq, Hit.
Qed.

Lemma evictions_ext c c' (ks : list K) :
  c_evictedFunc c' = c_evictedFunc c →
  (∀ k, k ∈ ks → c_items c' !! k = c_items c !! k) →
  evictions c' ks = evictions c ks.
Proof.
  intros Hhook. unfold evictions, evicted_events. rewrite Hhook.
  induction ks as [|k ks IH]; intros Hsame; [done|]. simpl.
  rewrite Hsame by left. f_equal. apply IH. intros k' Hk'. apply Hsame. by right.
Qed.

Lemma evict_loop_spec n w :
  wf (cache w) →
  wf (cache (evict_loop n w).2)
  ∧ c_evictList (cache (evict_loop n w).2)
    = take (length (c_evictList (cache w)) - n) (c_evictList (cache w))
  ∧ (∀ k, c_items (cache (evict_loop n w).2) !! k
          = if decide (k ∈ take (length (c_evictList (cache w)) - n)
                              (c_evictList (cache w)))
            then c_items (cache w) !! k else None)
  ∧ trace (evict_loop n w).2
    = trace w ++ evictions (cache w)
                   (reverse (drop (length (c_evictList (cache w)) - n)
                               (c_evictList (cache w)))).
Proof.
  revert w. induction n as [|n IH]; intros w Hwf.
  { simpl. rewrite Nat.sub_0_r, take_ge, drop_ge by lia.
    split; [done|]. split; [done|]. split; [|by rewrite app_nil_r].
    intros k. case_decide as Hk; [done|].
    destruct (c_items (cache w) !! k) eqn:Hit; [|done].
    destruct Hk. apply Hwf. by eauto. }
  rewrite evict_loop_S.
  destruct (list_Back (c_evictList (cache w))) as [kb|] eqn:Hb.
  2:{ apply last_None in Hb. rewrite Hb, take_nil, drop_nil. simpl snd.
      split; [done|]. split; [done|]. split; [|by rewrite app_nil_r].
      intros k. rewrite decide_False by apply not_elem_of_nil.
      destruct (c_items (cache w) !! k) eqn:Hit; [|done].
      assert (k ∈ c_evictList (cache w)) as Hin by (apply Hwf; by eauto).
      rewrite Hb in Hin. by apply elem_of_nil in Hin. }
  pose proof Hb as (l0 & Hl)%last_Some.
  destruct (wf_store_back _ _ _ _ Hwf Hl) as [Hkb [entry He]].
  assert (it_key entry = kb) as Hek by (by apply Hwf).
  rewrite He.
  pose proof (removeElement_wf entry w Hwf) as Hwf1.
  rewrite removeElement_eq in Hwf1 |- *. simpl snd in Hwf1 |- *.
  destruct (IH _ Hwf1) as (Hwf' & Hl' & Hm' & Ht').
  simpl in Hl', Hm', Ht'.
  rewrite Hek, Hl, list_Remove_back in Hl', Hm', Ht' by done.
  rewrite Hl, length_app. simpl.
  replace (length l0 + 1 - S n)%nat with (length l0 - n)%nat by lia.
  rewrite take_app_le, drop_app_le by lia.
  split; [done|]. split; [done|]. split.
  - intros k. rewrite Hm'. case_decide as Hk; [|done].
    rewrite lookup_delete_ne; [done|]. intros ->. apply Hkb.
    by apply (subseteq_take (length l0 - n) l0).
  - rewrite Ht', reverse_app. simpl. rewrite <- app_assoc. f_equal.
    rewrite He. f_equal.
    apply evictions_ext; [done|]. intros k Hk. simpl. rewrite Hek.
    rewrite lookup_delete_ne; [done|]. intros ->. apply Hkb.
    rewrite elem_of_reverse in Hk. by apply (subseteq_drop (length l0 - n) l0).
Qed.

(** X2: [evict(count)] removes the [count] items at the back of the
    recency list, the least recently used first, or all of them when the
    list is shorter: the list keeps its front part, the map keeps exactly
    the entries of the keys that stay, and the evicted callback is called
    for the removed entries from the back on. *)
Theorem X2_evict (count : Z) w :
  wf (cache w) →
  let l := c_evictList (cache w) in
  let kept := take (length l - Z.to_nat count) l in
  let gone := drop (length l - Z.to_nat count) l in
  c_evictList (cache (evict count w).2) = kept
  ∧ (∀ k, c_items (cache (evict count w).2) !! k
          = if decide (k ∈ kept) then c_items (cache w) !! k else None)
  ∧ live (cache (evict count w).2) = Z.max 0 (live (cache w) - Z.max 0 count)
  ∧ trace (evict count w).2 = trace w ++ evictions (cache w) (reverse gone)
  ∧ wf (cache (evict count w).2).
Proof.
  intros Hwf l kept gone. unfold evict.
  destruct (evict_loop_spec (Z.to_nat count) w Hwf) as (Hwf' & Hl' & Hm' & Ht').
  split; [done|]. split; [done|]. split; [|done].
  rewrite !wf_live, Hl', length_take by done. fold l. lia.
Qed.

End Removal.

(** ** Lookups after writes *)

Section Lookups.
Context {K : Type} {EqK : EqDecision K} {CntK : Countable K} {V : Type}.
Variable load :
  K → (LoaderResult V → M K V (result V)) → bool → M K V (result V * bool).
Implicit Types (c : LRUCache K V) (w : World K V) (k key : K) (value v : V).
Implicit Types (m : gmap K (lruItem K V)) (l : list K) (it item entry : lruItem K V).

(** X3: the lookup [getValue] finds a key exactly when the map holds it
    and its deadline, if it has one, is not before the clock's reading (an
    entry is still served at the instant of its deadline); the only error
    is [KeyNotFoundError]; a hit leaves the map alone and moves the key to
    the front; a miss on a key that is not stored leaves the cache alone;
    and unless called for the loader it counts exactly one hit or one miss,
    after the evicted callback of an expired entry. *)
Theorem X3_getValue key onLoad w :
  let now := Clock_peek (c_clock (cache w)) in
  (∀ v, (getValue key onLoad w).1 = Ok v
        ↔ ∃ item, c_items (cache w) !! key = Some item ∧ it_value item = v
                  ∧ ∀ D, it_expiration item = Some D → now ≤ D)
  ∧ (∀ e, (getValue key onLoad w).1 = Err e → e = KeyNotFoundError)
  ∧ (∀ v, (getValue key onLoad w).1 = Ok v →
       c_items (cache (getValue key onLoad w).2) = c_items (cache w)
       ∧ c_evictList (cache (getValue key onLoad w).2)
         = list_MoveToFront key (c_evictList (cache w)))
  ∧ (c_items (cache w) !! key = None →
       cache (getValue key onLoad w).2 = cache w)
  ∧ trace (getValue key onLoad w).2
    = trace w
      ++ match c_items (cache w) !! key with
         | Some item => if expired_at now item then evicted_events (cache w) item
                        else []
         | None => []
         end
      ++ (if onLoad then []
          else [match (getValue key onLoad w).1 with
                | Ok _ => IncrHitCount
                | Err _ => IncrMissCount
                end]).
Proof.
  intros now. rewrite getValue_eq. unfold expired_at, time.Before. fold now.
  destruct (c_items (cache w) !! key) as [item|] eqn:Hit.
  2:{ simpl. split; [|split; [|split; [|split]]]; try done.
      - intros v. split; [done|]. by intros (? & ? & _).
      - by intros e [= <-]. }
  destruct (it_expiration item) as [D|] eqn:HD.
  - destruct (Z.ltb_spec D now) as [Hlt|Hge]; simpl.
    + split; [|split; [|split; [|split]]]; try done.
      * intros v. split; [done|]. intros (item' & [= <-] & _ & Hnot).
        specialize (Hnot D HD). lia.
      * by intros e [= <-].
      * rewrite removeElement_eq. simpl. by rewrite <- app_assoc.
    + split; [|split; [|split; [|split]]]; try done.
      * intros v. split.
        -- intros [= <-]. exists item. split; [done|]. split; [done|].
           intros D' HD'. rewrite HD in HD'. by injection HD' as <-.
        -- intros (item' & [= <-] & <- & _). done.
  - simpl. split; [|split; [|split; [|split]]]; try done.
    intros v. split.
    + intros [= <-]. exists item. split; [done|]. split; [done|]. by rewrite HD.
    + intros (item' & [= <-] & <- & _). done.
Qed.

(** What a successful [set] leaves under its key. *)
Lemma set_stored key value v w :
  serialize (cache w) key value = Ok v →
  (∃ item,
     c_items (cache (set key value w).2) !! key = Some item
     ∧ it_value item = v
     ∧ it_expiration item
       = refreshed (cache w) (c_items (cache w) !! key ≫= it_expiration))
  ∧ (set key value w).1 = Ok key
  ∧ c_clock (cache (set key value w).2) = clock_after_set (cache w)
  ∧ config (cache (set key value w).2) = config (cache w)
  ∧ sysclock (set key value w).2 = sysclock w.
Proof.
  intros Hs. split; [|split; [by rewrite set_result, Hs|split; [|split]]].
  - destruct (c_items (cache w) !! key) as [it|] eqn:Hit.
    + rewrite (set_existing _ _ v it) by done. simpl. rewrite lookup_insert_eq.
      by eauto.
    + rewrite (set_new _ _ v) by done. simpl. rewrite lookup_insert_eq.
      eexists. split; [done|]. split; [done|]. simpl.
      unfold refreshed. case_bool_decide; [|done].
      destruct (evict_loop_frame (Z.to_nat 1) w) as (Hcfg & Hclk & _).
      change (evict_loop (Z.to_nat 1) w) with (evict 1 w) in Hcfg, Hclk.
      rewrite Hclk.
      assert (c_expiration (cache (evict 1 w).2) = c_expiration (cache w)) as ->;
        [|done].
      unfold config in Hcfg. congruence.
  - destruct (c_items (cache w) !! key) as [it|] eqn:Hit.
    + by rewrite (set_existing _ _ v it).
    + rewrite (set_new _ _ v) by done. simpl. unfold clock_after_set.
      case_bool_decide; [|done].
      destruct (evict_loop_frame (Z.to_nat 1) w) as (Hcfg & Hclk & _).
      change (evict_loop (Z.to_nat 1) w) with (evict 1 w) in Hcfg, Hclk.
      rewrite Hclk.
      assert (c_expiration (cache (evict 1 w).2) = c_expiration (cache w)) as ->;
        [|done].
      unfold config in Hcfg. congruence.
  - destruct (c_items (cache w) !! key) as [it|] eqn:Hit.
    + rewrite (set_existing _ _ v it) by done. unfold config, clock_after_set.
      simpl. by destruct (c_expiration (cache w)).
    + rewrite (set_new _ _ v) by done. unfold config, clock_after_set. simpl.
      assert (config (cache (if bool_decide
                (c_size (cache w) ≤ Z.of_nat (length (c_evictList (cache w))))
                then (evict 1 w).2 else w)) = config (cache w)) as Hcfg.
      { case_bool_decide; [|done]. apply (evict_loop_frame (Z.to_nat 1) w). }
      set (w0 := if bool_decide _ then _ else _) in *.
      unfold config in Hcfg. unfold clock_after_set.
      destruct (c_expiration (cache w0)); exact Hcfg.
  - apply set_sysclock.
Qed.

Lemma deserialize_config c c' key v :
  config c' = config c → deserialize c' key v = deserialize c key v.
Proof.
  unfold config, deserialize. intros Hcfg.
  assert (c_deserializeFunc c' = c_deserializeFunc c) as -> by congruence. done.
Qed.

(** X4: a lookup right after a successful Set returns the stored value
    through the deserialize hook, unless the deadline that Set left on the
    entry (see C4) is already before the clock's next reading, in which
    case the key is reported as not found; Has answers alike from the
    system clock.  Without hooks and without deadlines, Get returns the
    value that was set. *)
Theorem X4_Set_get key value v w :
  serialize (cache w) key value = Ok v →
  let deadline :=
    refreshed (cache w) (c_items (cache w) !! key ≫= it_expiration) in
  let w1 := (Set_ key value w).2 in
  (get key false w1).1
  = match deadline with
    | Some D =>
        if time.Before D (Clock_peek (c_clock (cache w1)))
        then Err KeyNotFoundError else deserialize (cache w) key v
    | None => deserialize (cache w) key v
    end
  ∧ (Has key w1).1
    = match deadline with
      | Some D => negb (time.Before D (Clock_peek (sysclock w)))
      | None => true
      end
  ∧ (c_serializeFunc (cache w) = None → c_deserializeFunc (cache w) = None →
     deadline = None → (Get load key w1).1 = Ok value).
Proof.
  intros Hs deadline w1.
  destruct (set_stored key value v w Hs)
    as ((item & Hit & Hval & Hexp) & Hres & Hclk & Hcfg & Hsys).
  assert (w1 = (set key value w).2) as Hw1.
  { subst w1. rewrite Set_eq. by destruct (set key value w) as [[?|?] ?]. }
  fold deadline in Hexp. rewrite <- Hw1 in Hit, Hclk, Hcfg, Hsys.
  assert ((get key false w1).1
          = match deadline with
            | Some D =>
                if time.Before D (Clock_peek (c_clock (cache w1)))
                then Err KeyNotFoundError else deserialize (cache w) key v
            | None => deserialize (cache w) key v
            end) as Hget.
  { rewrite get_eq, getValue_eq, Hit, Hexp.
    destruct deadline as [D|]; simpl.
    - destruct (time.Before D (Clock_peek (c_clock (cache w1)))); simpl; [done|].
      rewrite Hval. by apply deserialize_config.
    - rewrite Hval. by apply deserialize_config. }
  split; [done|]. split.
  - rewrite Has_eq. unfold alive, expired_at. simpl. rewrite Hit, Hexp, Hsys.
    by destruct deadline.
  - intros Hser Hde Hnone. rewrite Hnone in Hget.
    unfold serialize in Hs. rewrite Hser in Hs. injection Hs as <-.
    unfold deserialize in Hget. rewrite Hde in Hget.
    rewrite Get_eq_get; [done|]. left. by rewrite Hget.
Qed.

(** X5: GetKeyTTL right after a successful SetWithExpire returns the
    duration that was set, less the time the clock moved between the two
    calls: the duration itself when the clock stood still, and no more than
    it when the clock did not go back. *)
Theorem X5_SetWithExpire_GetKeyTTL key value v d w :
  serialize (cache w) key value = Ok v →
  let t1 := Clock_peek (clock_after_set (cache w)) in
  let t2 := Clock_peek (Clock_tick (clock_after_set (cache w))) in
  (GetKeyTTL key (SetWithExpire key value d w).2).1
  = Ok (time.Sub (time.Add t1 d) t2)
  ∧ (t2 = t1 → time.minDuration ≤ d ≤ time.maxDuration →
     (GetKeyTTL key (SetWithExpire key value d w).2).1 = Ok d)
  ∧ (t1 ≤ t2 → time.minDuration ≤ d ≤ time.maxDuration →
     time.Sub (time.Add t1 d) t2 ≤ d).
Proof.
  intros Hs t1 t2.
  destruct (set_stored key value v w Hs)
    as ((item & Hit & Hval & Hexp) & Hres & Hclk & Hcfg & Hsys).
  assert ((GetKeyTTL key (SetWithExpire key value d w).2).1
          = Ok (time.Sub (time.Add t1 d) t2)) as Httl.
  { rewrite SetWithExpire_eq.
    destruct (set key value w) as [[p|e] w1]; simpl in *; [|done].
    injection Hres as ->. rewrite GetKeyTTL_eq. simpl.
    rewrite lookup_alter_eq, Hit. simpl. by rewrite Hclk. }
  split; [done|]. split.
  - intros Heq [Hlo Hhi]. rewrite Httl, Heq. f_equal.
    unfold time.Sub, time.Add.
    replace (t1 + d - t1) with d by lia.
    destruct (Z.ltb_spec d time.minDuration); [lia|].
    destruct (Z.ltb_spec time.maxDuration d); [lia|done].
  - intros Hmono [Hlo Hhi]. unfold time.Sub, time.Add.
    destruct (Z.ltb_spec (t1 + d - t2) time.minDuration); [lia|].
    destruct (Z.ltb_spec time.maxDuration (t1 + d - t2)); lia.
Qed.

Lemma getValue_hit key onLoad v w :
  (getValue key onLoad w).1 = Ok v →
  is_Some (c_items (cache w) !! key)
  ∧ c_items (cache (getValue key onLoad w).2) = c_items (cache w)
  ∧ c_evictList (cache (getValue key onLoad w).2)
    = list_MoveToFront key (c_evictList (cache w)).
Proof.
  rewrite getValue_eq.
  destruct (c_items (cache w) !! key) as [item|]; [|done].
  destruct (it_expiration item) as [D|]; [|by eauto].
  destruct (time.Before D (Clock_peek (c_clock (cache w)))); [done|by eauto].
Qed.

(** X6: after a lookup that found [key], the key is at the front of the
    recency list, and a Set of any other key leaves it in the store when
    the capacity is at least 2; with capacity 1, the Set of a new key
    evicts it. *)
Theorem X6_recency key v onLoad key' value' w :
  wf (cache w) → within_capacity (cache w) →
  (getValue key onLoad w).1 = Ok v → key' ≠ key →
  let w1 := (getValue key onLoad w).2 in
  head (c_evictList (cache w1)) = Some key
  ∧ (2 ≤ c_size (cache w) →
     c_items (cache (Set_ key' value' w1).2) !! key = c_items (cache w) !! key)
  ∧ (c_size (cache w) = 1 → c_items (cache w) !! key' = None →
     (∃ v', serialize (cache w) key' value' = Ok v') →
     c_items (cache (Set_ key' value' w1).2) !! key = None).
Proof.
  intros Hwf Hcap Hhit Hne w1.
  destruct (getValue_hit key onLoad v w Hhit) as (Hin & Hm & Hl).
  pose proof (getValue_config key onLoad w) as Hcfg.
  pose proof (config_size _ _ Hcfg) as Hsz.
  fold w1 in Hm, Hl, Hcfg, Hsz.
  assert (key ∈ c_evictList (cache w)) as Hkl by (by apply Hwf).
  assert (wf (cache w1)) as Hwf1.
  { unfold wf. rewrite Hm, Hl. by apply wf_store_move. }
  assert (within_capacity (cache w1)) as Hcap1.
  { unfold within_capacity in *. rewrite Hl, Hsz.
    rewrite list_MoveToFront_length; [done|apply Hwf]. }
  assert (head (c_evictList (cache w1)) = Some key) as Hhd.
  { rewrite Hl. by apply list_MoveToFront_head. }
  assert (∀ w', (Set_ key' value' w').2 = (set key' value' w').2) as Hset.
  { intros w'. rewrite Set_eq. by destruct (set key' value' w') as [[?|?] ?]. }
  split; [done|]. split.
  - intros H2. rewrite Hset.
    destruct (set_keeps key' value' w1 1 key) as [_ Hsame];
      [done|done|lia| |done|by rewrite Hsame, Hm].
    destruct (c_evictList (cache w1)); simplify_eq/=. by left.
  - intros H1 Hnew [v' Hs]. rewrite Hset.
    destruct (set_at_capacity key' value' v' w1)
      as (l0 & kb & entry & Hl0 & He & Hek & Hkn & Hkb & _ & _ & Hm' & _);
      [done|lia| |by rewrite (serialize_config _ _ _ _ Hcfg)|by rewrite Hm|].
    { rewrite wf_live by done. rewrite Hl, list_MoveToFront_length by apply Hwf.
      destruct (c_evictList (cache w)); [by apply elem_of_nil in Hkl|].
      simpl. lia. }
    rewrite Hm'. rewrite lookup_insert_ne by done.
    assert (kb = key) as ->; [|by rewrite lookup_delete_eq].
    unfold within_capacity in Hcap1. rewrite Hl0, length_app in Hcap1.
    simpl in Hcap1. destruct l0 as [|x l0]; [|simpl in Hcap1; lia].
    rewrite Hl0 in Hhd. simpl in Hhd. by injection Hhd.
Qed.

(** X13: the callback through which a loaded value reaches the store.
    When the loader failed, it passes the error on and touches nothing;
    otherwise it leaves the world that SetWithExpire leaves when the
    loader gave a duration and the world that Set leaves when it gave
    none, and it answers with the loaded value itself, or with the error
    of the serialize hook. *)
Theorem X13_loaderCallback key v w :
  (∀ exp e, loaderCallback key (v, exp, Some e) w = (Err e, w))
  ∧ (∀ d, (loaderCallback key (v, Some d, None) w).2
          = (SetWithExpire key v d w).2)
  ∧ (loaderCallback key (v, None, None) w).2 = (Set_ key v w).2
  ∧ (∀ exp, (loaderCallback key (v, exp, None) w).1
            = match serialize (cache w) key v with
              | Ok _ => Ok v
              | Err e => Err e
              end).
Proof.
  split; [done|].
  pose proof (set_result key v w) as Hr.
  split; [|split].
  - intros d. rewrite SetWithExpire_eq. unfold loaderCallback, bind at 1.
    by destruct (set key v w) as [[p|e] w1].
  - rewrite Set_eq. unfold loaderCallback, bind at 1.
    by destruct (set key v w) as [[p|e] w1].
  - intros exp. unfold loaderCallback, bind at 1.
    destruct (set key v w) as [[p|e] w1]; simpl in Hr;
      destruct (serialize (cache w) key v); simplify_eq; [|done].
    destruct exp; by unfold bind, ret, clock_Now, store_expiration, update.
Qed.

(** X14: without a loader, Get and GetIFPresent are the plain lookup: on
    a key that is not stored they return [KeyNotFoundError], count one
    miss and leave the cache as it was. *)
Theorem X14_Get_without_loader key w :
  c_loaderExpireFunc (cache w) = None →
  Get load key w = get key false w
  ∧ GetIFPresent load key w = get key false w
  ∧ (c_items (cache w) !! key = None →
     Get load key w = (Err KeyNotFoundError, missed false w)
     ∧ cache (Get load key w).2 = cache w
     ∧ trace (Get load key w).2 = trace w ++ [IncrMissCount]).
Proof.
  intros Hl.
  assert (Get load key w = get key false w) as HGet
    by (apply Get_eq_get; by right).
  split; [done|]. split.
  - unfold GetIFPresent, bind at 1.
    pose proof (get_world key false w) as Hw.
    pose proof (getValue_config key false w) as Hcfg.
    destruct (get key false w) as [[v|e] w1]; [done|].
    simpl in *. destruct (decide (e = KeyNotFoundError)) as [->|Hne];
      [|by destruct e].
    rewrite getWithLoader_none; [done|]. subst w1.
    unfold config in Hcfg. congruence.
  - intros Hit. rewrite HGet, get_eq, getValue_eq, Hit. done.
Qed.

End Lookups.

(** ** Runs of writes *)

Section Runs.
Context {K : Type} {EqK : EqDecision K} {CntK : Countable K} {V : Type}.
Implicit Types (c : LRUCache K V) (w : World K V) (k key : K) (value v : V).
Implicit Types (m : gmap K (lruItem K V)) (l : list K) (it item entry : lruItem K V).

(** A new key goes in front of the [size - 1] most recently used keys;
    the entries of those keys are untouched and every other entry is
    gone. *)
Lemma set_new_key key value v w :
  wf (cache w) → within_capacity (cache w) → 1 ≤ c_size (cache w) →
  serialize (cache w) key value = Ok v →
  c_items (cache w) !! key = None →
  let kept := take (Z.to_nat (c_size (cache w)) - 1) (c_evictList (cache w)) in
  c_evictList (cache (set key value w).2) = key :: kept
  ∧ ∀ k, k ≠ key →
         c_items (cache (set key value w).2) !! k
         = if decide (k ∈ kept) then c_items (cache w) !! k else None.
Proof.
  intros Hwf Hcap Hsz Hs Hit kept. subst kept.
  destruct (decide (c_size (cache w) ≤ live (cache w))) as [Hfull|Hroom].
  - destruct (set_at_capacity key value v w)
      as (l0 & kb & entry & Hl & He & Hek & Hkn & Hkb & _ & Hl' & Hm' & _);
      [done..|].
    rewrite wf_live in Hfull by done. unfold within_capacity in Hcap.
    rewrite Hl, length_app in Hfull, Hcap. simpl in Hfull, Hcap.
    rewrite Hl', Hm', Hl.
    rewrite take_app_length' by lia.
    split; [done|]. intros k Hk. rewrite lookup_insert_ne by done.
    case_decide as Hin.
    + rewrite lookup_delete_ne; [done|]. by intros ->.
    + destruct (decide (k = kb)) as [->|Hkk]; [by rewrite lookup_delete_eq|].
      rewrite lookup_delete_ne by done.
      destruct (c_items (cache w) !! k) eqn:Hk'; [|done].
      destruct Hin. assert (k ∈ c_evictList (cache w)) as Hkl
        by (apply Hwf; by eauto).
      rewrite Hl, elem_of_app, list_elem_of_singleton in Hkl. tauto.
  - rewrite wf_live in Hroom by done.
    rewrite (set_new_room _ _ v) by (done || lia). simpl.
    rewrite take_ge by lia.
    split; [done|]. intros k Hk. rewrite lookup_insert_ne by done.
    case_decide as Hin; [done|].
    destruct (c_items (cache w) !! k) eqn:Hk'; [|done].
    destruct Hin. apply Hwf. by eauto.
Qed.

Lemma run_snoc (ops : list (op K V)) o w :
  run (ops ++ [o]) w = step o (run ops w).
Proof. unfold run. by rewrite foldl_app. Qed.

(** X7: after Set of pairwise different keys into a fresh cache of
    capacity [size >= 1] without serialize hook, the recency list holds
    the last [size] of the keys, the latest first; each of them is stored
    with the value it was set to, and the earlier keys are no longer
    stored. *)
Theorem X7_most_recent (cb : CacheBuilder K V) sys (kvs : list (K * V)) :
  1 ≤ cb_size cb → cb_serializeFunc cb = None → NoDup kvs.*1 →
  let w := run ((λ kv, OpSet kv.1 kv.2) <$> kvs) (newWorld cb sys) in
  let kept := take (Z.to_nat (cb_size cb)) (reverse kvs.*1) in
  c_evictList (cache w) = kept
  ∧ (∀ k v, (k, v) ∈ kvs → k ∈ kept → it_value <$> c_items (cache w) !! k = Some v)
  ∧ (∀ k, k ∉ kept → c_items (cache w) !! k = None).
Proof.
  intros Hsz Hser. induction kvs as [|[k0 v0] kvs IH] using rev_ind; intros Hnd.
  { simpl. rewrite reverse_nil, take_nil. split; [done|]. split; [|done].
    intros k v Hin. by apply elem_of_nil in Hin. }
  rewrite fmap_app in Hnd. simpl in Hnd.
  apply NoDup_app in Hnd as (Hnd & Hfresh & _).
  assert (k0 ∉ kvs.*1) as Hk0.
  { intros Hin. apply (Hfresh _ Hin). left. }
  destruct (IH Hnd) as (Hl & Hval & Hgone). clear IH.
  rewrite !fmap_app, reverse_app. simpl.
  rewrite run_snoc.
  set (w := run ((λ kv, OpSet kv.1 kv.2) <$> kvs) (newWorld cb sys)) in *.
  destruct (newWorld_inv cb sys) as [Hwf0 Hcap0]; [lia|].
  destruct (run_inv ((λ kv, OpSet kv.1 kv.2) <$> kvs) (newWorld cb sys))
    as (Hwf & Hcap & Hcfg); [done..|].
  fold w in Hwf, Hcap, Hcfg.
  assert (c_size (cache w) = cb_size cb) as Hsize
    by (by rewrite (config_size _ _ Hcfg)).
  assert (serialize (cache w) k0 v0 = Ok v0) as Hs.
  { unfold serialize.
    assert (c_serializeFunc (cache w) = None) as ->; [|done].
    unfold config in Hcfg. simpl in Hcfg. congruence. }
  assert (c_items (cache w) !! k0 = None) as Hnew.
  { apply Hgone. intros Hin. apply (subseteq_take _ _) in Hin.
    by rewrite elem_of_reverse in Hin. }
  destruct (set_new_key k0 v0 v0 w) as [Hl' Hm']; [done|done|lia|done|done|].
  destruct (set_stored k0 v0 v0 w Hs) as ((item & Hitem & Hv & _) & _).
  assert (step (OpSet k0 v0) w = (set k0 v0 w).2) as ->.
  { simpl. rewrite Set_eq. by destruct (set k0 v0 w) as [[?|?] ?]. }
  rewrite Hsize, Hl, take_take in Hl', Hm'.
  rewrite Nat.min_l in Hl', Hm' by lia.
  assert (take (Z.to_nat (cb_size cb)) (k0 :: reverse kvs.*1)
          = k0 :: take (Z.to_nat (cb_size cb) - 1) (reverse kvs.*1)) as Htake.
  { destruct (Z.to_nat (cb_size cb)) as [|n] eqn:Hn; [lia|].
    simpl. by rewrite Nat.sub_0_r. }
  rewrite Htake. split; [done|]. split.
  - intros k v Hin Hk. apply elem_of_app in Hin as [Hin|Hin].
    + assert (k ≠ k0) as Hne.
      { intros ->. apply Hk0. apply list_elem_of_fmap. by exists (k0, v). }
      apply elem_of_cons in Hk as [?|Hk]; [done|].
      rewrite Hm', decide_True by done. apply Hval; [done|].
      by apply (take_elem_mono k (Z.to_nat (cb_size cb) - 1)); [lia|].
    + apply list_elem_of_singleton in Hin as [= -> ->].
      by rewrite Hitem, <- Hv.
  - intros k Hk. apply not_elem_of_cons in Hk as [Hne Hk].
    by rewrite Hm', decide_False.
Qed.

Lemma batchSetStep_step (req : BatchSetReq K V) w :
  (batchSetStep req w).2 = step (req_op req) w.
Proof.
  rewrite batchSetStep_eq. unfold req_op.
  pose proof (set_result (GetKey req) (GetValue req) w) as Hr.
  destruct (GetExpiration req) as [d|]; simpl.
  - rewrite SetWithExpire_eq.
    by destruct (set (GetKey req) (GetValue req) w) as [[p|e] w1].
  - rewrite Set_eq.
    by destruct (set (GetKey req) (GetValue req) w) as [[p|e] w1].
Qed.

Lemma batchSetLoop_run (reqs : list (BatchSetReq K V)) w :
  (batchSetLoop reqs w).1 = None →
  (batchSetLoop reqs w).2 = run (req_op <$> reqs) w.
Proof.
  revert w. induction reqs as [|req reqs IH]; intros w; [done|].
  rewrite batchSetLoop_cons. simpl.
  pose proof (batchSetStep_step req w) as Hstep.
  destruct (batchSetStep req w) as [[e|] w1]; [done|].
  simpl in Hstep. rewrite <- Hstep. apply IH.
Qed.

(** X8: a batch that fits the capacity and whose values the serialize
    hook accepts is applied in full: BatchSet returns no error, leaves the
    world that the same requests leave as a sequence of Set and
    SetWithExpire calls, and every key of the batch is in the store
    afterwards. *)
Theorem X8_BatchSet_applied (reqs : list (BatchSetReq K V)) w :
  wf (cache w) → within_capacity (cache w) →
  Z.of_nat (length reqs) ≤ c_size (cache w) →
  (∀ r, r ∈ reqs → ∃ v, serialize (cache w) (GetKey r) (GetValue r) = Ok v) →
  BatchSet reqs w = (None, run (req_op <$> reqs) w)
  ∧ (∀ r, r ∈ reqs → is_Some (c_items (cache (BatchSet reqs w).2) !! GetKey r))
  ∧ wf (cache (BatchSet reqs w).2)
  ∧ within_capacity (cache (BatchSet reqs w).2).
Proof.
  intros Hwf Hcap Hlen Hok.
  rewrite BatchSet_eq, bool_decide_eq_false_2 by lia.
  destruct reqs as [|req reqs].
  { split; [done|]. split; [|done]. intros r Hr. by apply elem_of_nil in Hr. }
  assert (1 ≤ c_size (cache w)) as Hsz by (simpl in Hlen; lia).
  pose proof (batchSetLoop_success (req :: reqs) w Hsz Hwf Hcap Hok) as Hnone.
  pose proof (batchSetLoop_run (req :: reqs) w Hnone) as Hrun.
  destruct (batchSetLoop_inv (req :: reqs) w Hsz Hwf Hcap) as (Hwf1 & Hcap1 & Hcfg1).
  pose proof (batchSetLoop_present (req :: reqs) w Hwf Hcap Hlen Hnone) as Hpres.
  destruct (batchSetLoop (req :: reqs) w) as [[e|] w1]; [done|].
  simpl in Hrun, Hwf1, Hcap1, Hcfg1, Hpres. subst w1.
  split; [done|]. split; [|by split].
  intros r Hr. apply Hwf1.
  apply (subseteq_take (length (req :: reqs))). by apply Hpres.
Qed.

End Runs.

(** ** Introspection, Purge, and the invariant under every call *)

Section Whole.
Context {K : Type} {EqK : EqDecision K} {CntK : Countable K} {V : Type}.
Variable load :
  K → (LoaderResult V → M K V (result V)) → bool → M K V (result V * bool).
Implicit Types (c : LRUCache K V) (w : World K V) (k key : K) (value v : V).
Implicit Types (m : gmap K (lruItem K V)) (l : list K) (it item entry : lruItem K V).


(** X9: Keys without the expiry check lists every stored key exactly
    once; with the check it lists the keys among them that are not expired
    at the system clock's reading.  [keys] lists the same keys as Keys
    without the check, each once, in whatever order its own loop meets
    them, as many as the map holds, and changes nothing.  Len counts what
    Keys lists, so Len with the check never exceeds Len without it, and
    Len without the check reads no clock at all.  Neither changes the
    cache or the trace. *)
Theorem X9_Keys_Len (order : list K → list K) checkExpired w :
  (∀ l, order l ≡ₚ l) →
  (Keys false w).1 ≡ₚ (keys order w).1
  ∧ NoDup (Keys checkExpired w).1
  ∧ (∀ k, k ∈ (Keys false w).1 ↔ is_Some (c_items (cache w) !! k))
  ∧ (∀ k, k ∈ (Keys true w).1
          ↔ k ∈ (Keys false w).1
            ∧ alive (Clock_peek (sysclock w)) (cache w) k = true)
  ∧ (Len checkExpired w).1 = Z.of_nat (length (Keys checkExpired w).1)
  ∧ (Len true w).1 ≤ (Len false w).1
  ∧ Len false w = (live (cache w), w)
  ∧ (NoDup (keys order w).1
     ∧ (∀ k, k ∈ (keys order w).1 ↔ is_Some (c_items (cache w) !! k))
     ∧ length (keys order w).1 = size (c_items (cache w))
     ∧ (keys order w).2 = w)
  ∧ cache (Keys checkExpired w).2 = cache w
  ∧ trace (Keys checkExpired w).2 = trace w
  ∧ cache (Len checkExpired w).2 = cache w
  ∧ trace (Len checkExpired w).2 = trace w.
Proof.
  clear load. intros Horder. rewrite !Keys_eq, !Len_eq. simpl.
  pose proof (NoDup_fst_map_to_list (c_items (cache w))) as Hnd.
  assert (live (cache w)
          = Z.of_nat (length (map_to_list (c_items (cache w))).*1)) as Hlive.
  { unfold live. by rewrite length_fmap, length_map_to_list. }
  split; [by rewrite Horder|]. split.
  { destruct checkExpired; [by apply NoDup_filter|done]. }
  split; [intros k; apply elem_of_keys|]. split.
  { intros k. rewrite list_elem_of_filter. tauto. }
  split; [by destruct checkExpired|]. split.
  { rewrite Hlive.
    pose proof (length_filter
      (λ k, alive (Clock_peek (sysclock w)) (cache w) k = true)
      (map_to_list (c_items (cache w))).*1). lia. }
  split; [done|]. split.
  { split; [by rewrite Horder|]. split.
    - intros k. rewrite Horder. apply elem_of_keys.
    - split; [|done].
      by rewrite Horder, length_fmap, length_map_to_list. }
  by destruct checkExpired.
Qed.

(** X10: GetALL without the expiry check returns the value of every
    stored key; with the check it returns the part of that mapping whose
    entries are not expired at the system clock's reading.  Its keys are
    the keys that Keys lists, and it leaves the cache and the trace as
    they were. *)
Theorem X10_GetALL checkExpired w :
  (GetALL false w).1 = it_value <$> c_items (cache w)
  ∧ (GetALL true w).1 ⊆ (GetALL false w).1
  ∧ (∀ k, is_Some ((GetALL checkExpired w).1 !! k) ↔ k ∈ (Keys checkExpired w).1)
  ∧ cache (GetALL checkExpired w).2 = cache w
  ∧ trace (GetALL checkExpired w).2 = trace w.
Proof.
  destruct (GetALL_eq false w) as [_ Hf].
  destruct (GetALL_eq true w) as [_ Ht].
  destruct (GetALL_eq checkExpired w) as [Hw Hk].
  split.
  { apply map_eq. intros k. rewrite Hf, lookup_fmap. unfold reported.
    by destruct (c_items (cache w) !! k). }
  split.
  { apply map_subseteq_spec. intros k v. rewrite Ht, Hf. unfold reported.
    destruct (c_items (cache w) !! k) as [item|]; [|done]. simpl.
    by destruct (expired_at _ item). }
  split; [|by rewrite Hw].
  intros k. rewrite Hk, Keys_eq. simpl. unfold reported.
  destruct checkExpired; simpl.
  - rewrite list_elem_of_filter, elem_of_keys. unfold alive.
    destruct (c_items (cache w) !! k) as [item|]; simpl.
    + destruct (expired_at _ item); simpl.
      * split; [by intros [? ?]|by intros [? _]].
      * split; [by eauto|by eauto].
    + split; [by intros [? ?]|by intros [? _]].
  - rewrite elem_of_keys. destruct (c_items (cache w) !! k); [|done].
    split; by eauto.
Qed.

(** X11: BatchGet, on keys that are all stored or in a cache without
    loader, returns for each requested key what GetALL returns for it and
    nothing for the others; unlike Get it neither moves a key in the
    recency list nor counts hits or misses. *)
Theorem X11_BatchGet checkExpired (keys : list K) w :
  (∀ k, k ∈ keys → is_Some (c_items (cache w) !! k))
  ∨ c_loaderExpireFunc (cache w) = None →
  (∀ k, (BatchGet load checkExpired keys w).1 !! k
        = if decide (k ∈ keys) then (GetALL checkExpired w).1 !! k else None)
  ∧ cache (BatchGet load checkExpired keys w).2 = cache w
  ∧ trace (BatchGet load checkExpired keys w).2 = trace w.
Proof.
  intros Hcase.
  destruct (BatchGet_eq load checkExpired keys w Hcase) as [Hw Hk].
  destruct (GetALL_eq checkExpired w) as [_ Hall].
  split; [|by rewrite Hw]. intros k. by rewrite Hk, Hall.
Qed.

Lemma Purge_eq purgeVisitorFunc w :
  Purge purgeVisitorFunc w
  = (if purgeVisitorFunc
     then (λ ki : K * lruItem K V, (ki.1, it_value ki.2))
            <$> map_to_list (c_items (cache w))
     else [],
     {| cache := with_items ∅ (with_evictList [] (cache w));
        sysclock := sysclock w; trace := trace w |}).
Proof.
  unfold Purge, init, bind, read, update, ret.
  destruct purgeVisitorFunc; by destruct w.
Qed.

(** X12: Purge leaves the cache that [newLRUCache] builds from the same
    options, with the clock where it stands: an empty map and an empty
    list, on which every key is reported absent.  It calls the purge
    visitor, when there is one, once for each entry with its key and
    value, and never the evicted callback. *)
Theorem X12_Purge purgeVisitorFunc key onLoad w :
  cache (Purge purgeVisitorFunc w).2
  = newLRUCache
      {| cb_clock := c_clock (cache w); cb_size := c_size (cache w);
         cb_expiration := c_expiration (cache w);
         cb_serializeFunc := c_serializeFunc (cache w);
         cb_deserializeFunc := c_deserializeFunc (cache w);
         cb_loaderExpireFunc := c_loaderExpireFunc (cache w);
         cb_addedFunc := c_addedFunc (cache w);
         cb_evictedFunc := c_evictedFunc (cache w) |}
  ∧ c_items (cache (Purge purgeVisitorFunc w).2) = ∅
  ∧ c_evictList (cache (Purge purgeVisitorFunc w).2) = []
  ∧ trace (Purge purgeVisitorFunc w).2 = trace w
  ∧ sysclock (Purge purgeVisitorFunc w).2 = sysclock w
  ∧ wf (cache (Purge purgeVisitorFunc w).2)
  ∧ (Has key (Purge purgeVisitorFunc w).2).1 = false
  ∧ (getValue key onLoad (Purge purgeVisitorFunc w).2).1 = Err KeyNotFoundError
  ∧ (Len false (Purge purgeVisitorFunc w).2).1 = 0
  ∧ (Purge false w).1 = []
  ∧ NoDup (Purge true w).1.*1
  ∧ (∀ k v, (k, v) ∈ (Purge true w).1
            ↔ it_value <$> c_items (cache w) !! k = Some v).
Proof.
  rewrite !Purge_eq. simpl.
  split; [done|]. split; [done|]. split; [done|]. split; [done|].
  split; [done|]. split; [apply wf_store_empty|].
  split; [by rewrite Has_eq|].
  split; [by rewrite getValue_eq|].
  split; [by rewrite ?Len_eq|]. split; [done|]. split.
  - rewrite <- list_fmap_compose.
    apply (NoDup_fst_map_to_list (c_items (cache w))).
  - intros k v. rewrite list_elem_of_fmap. split.
    + intros ([k' item] & [= -> ->] & Hin).
      apply elem_of_map_to_list in Hin. simpl. by rewrite Hin.
    + destruct (c_items (cache w) !! k) as [item|] eqn:Hit; [|done].
      intros [= <-]. exists (k, item). split; [done|].
      by apply elem_of_map_to_list.
Qed.

(** *** The invariant under every call *)

Lemma set_bounded key value w :
  wf (cache w) → bounded (cache w) →
  wf (cache (set key value w).2)
  ∧ bounded (cache (set key value w).2)
  ∧ config (cache (set key value w).2) = config (cache w).
Proof.
  intros Hwf Hb. unfold wf, bounded in *.
  destruct (serialize (cache w) key value) as [v|e] eqn:Hs;
    [|by rewrite (set_refused _ _ e)].
  destruct (set_stored key value v w Hs) as (_ & _ & _ & Hcfg & _).
  split; [|split; [|done]].
  - destruct (c_items (cache w) !! key) as [it|] eqn:Hit.
    { rewrite (set_existing _ _ v it) by done. simpl.
      eapply wf_store_overwrite;
        [exact Hit|simpl; by apply Hwf|by apply wf_store_move]. }
    rewrite (set_new _ _ v) by done. simpl.
    case_bool_decide as Hfull; [|by apply wf_store_push].
    change (evict 1 w) with (evict_loop 1 w). rewrite evict_loop_S.
    destruct (list_Back (c_evictList (cache w))) as [kb|] eqn:Hback;
      [|by apply wf_store_push].
    pose proof Hback as (l0 & Hl)%last_Some.
    destruct (wf_store_back _ _ _ _ Hwf Hl) as [Hkb [entry He]].
    assert (it_key entry = kb) as Hek by (by apply Hwf).
    rewrite He, removeElement_eq. simpl. rewrite Hek.
    apply wf_store_push; [|done|by apply wf_store_remove].
    rewrite lookup_delete_ne; [done|]. intros <-. congruence.
  - rewrite (config_size _ _ Hcfg).
    destruct (c_items (cache w) !! key) as [it|] eqn:Hit.
    { rewrite (set_existing _ _ v it) by done. simpl.
      rewrite list_MoveToFront_length; [done|apply Hwf]. }
    rewrite (set_new _ _ v) by done. simpl. unfold list_PushFront. simpl.
    case_bool_decide as Hfull; [|lia].
    change (evict 1 w) with (evict_loop 1 w). rewrite evict_loop_S.
    destruct (list_Back (c_evictList (cache w))) as [kb|] eqn:Hback.
    2:{ apply last_None in Hback. simpl. rewrite Hback. simpl. lia. }
    pose proof Hback as (l0 & Hl)%last_Some.
    destruct (wf_store_back _ _ _ _ Hwf Hl) as [Hkb [entry He]].
    assert (it_key entry = kb) as Hek by (by apply Hwf).
    rewrite He, removeElement_eq. simpl. rewrite Hek.
    rewrite list_Remove_length; [done|apply Hwf|].
    apply Hwf. by eauto.
Qed.

Lemma stamped_bounded (p : K) d w :
  wf (cache w) → bounded (cache w) →
  wf (cache (stamped p d w))
  ∧ bounded (cache (stamped p d w))
  ∧ config (cache (stamped p d w)) = config (cache w).
Proof.
  intros Hwf Hb. unfold wf, bounded in *. simpl.
  split; [|done]. by apply wf_store_alter.
Qed.

Lemma batchSetLoop_bounded (reqs : list (BatchSetReq K V)) w :
  wf (cache w) → bounded (cache w) →
  wf (cache (batchSetLoop reqs w).2)
  ∧ bounded (cache (batchSetLoop reqs w).2)
  ∧ config (cache (batchSetLoop reqs w).2) = config (cache w).
Proof.
  revert w. induction reqs as [|req reqs IH]; intros w Hwf Hb; [done|].
  rewrite batchSetLoop_cons, batchSetStep_eq.
  destruct (set_bounded (GetKey req) (GetValue req) w Hwf Hb)
    as (Hwf1 & Hb1 & Hcfg1).
  destruct (set (GetKey req) (GetValue req) w) as [[item|e] w1];
    simpl in Hwf1, Hb1, Hcfg1; [|done].
  destruct (GetExpiration req) as [d|].
  - destruct (stamped_bounded item d w1 Hwf1 Hb1) as (Hwf2 & Hb2 & Hcfg2).
    destruct (IH _ Hwf2 Hb2) as (? & ? & Hcfg3).
    split; [done|]. split; [done|].
    exact (eq_trans Hcfg3 (eq_trans Hcfg2 Hcfg1)).
  - destruct (IH _ Hwf1 Hb1) as (? & ? & Hcfg3).
    split; [done|]. split; [done|]. exact (eq_trans Hcfg3 Hcfg1).
Qed.

Lemma removeElement_bounded entry w :
  wf (cache w) → bounded (cache w) →
  wf (cache (removeElement entry w).2)
  ∧ bounded (cache (removeElement entry w).2)
  ∧ config (cache (removeElement entry w).2) = config (cache w).
Proof.
  intros Hwf Hb. rewrite removeElement_eq. unfold wf, bounded in *. simpl.
  split; [by apply wf_store_remove|]. split; [|done].
  pose proof (length_filter (λ x, x ≠ it_key entry) (c_evictList (cache w))).
  unfold list_Remove. lia.
Qed.

Lemma step_bounded (o : op K V) w :
  wf (cache w) → bounded (cache w) →
  wf (cache (step o w))
  ∧ bounded (cache (step o w))
  ∧ config (cache (step o w)) = config (cache w).
Proof.
  intros Hwf Hb. destruct o as [key value|key value d|reqs|key|key|key]; simpl.
  - rewrite Set_eq. pose proof (set_bounded key value w Hwf Hb) as H.
    by destruct (set key value w) as [[item|e] w1].
  - rewrite SetWithExpire_eq.
    destruct (set_bounded key value w Hwf Hb) as (Hwf1 & Hb1 & Hcfg1).
    destruct (set key value w) as [[item|e] w1]; simpl in Hwf1, Hb1, Hcfg1;
      [|done].
    destruct (stamped_bounded item d w1 Hwf1 Hb1) as (? & ? & Hcfg2).
    split; [done|]. split; [done|]. exact (eq_trans Hcfg2 Hcfg1).
  - rewrite BatchSet_eq. case_bool_decide; [done|].
    by apply batchSetLoop_bounded.
  - unfold Remove. rewrite remove_eq.
    destruct (c_items (cache w) !! key) as [ent|]; [|done].
    by apply removeElement_bounded.
  - by rewrite Has_eq.
  - rewrite GetKeyTTL_eq.
    destruct (c_items (cache w) !! key) as [item|]; [|done].
    by destruct (it_expiration item).
Qed.

Lemma getValue_bounded key onLoad w :
  wf (cache w) → bounded (cache w) →
  wf (cache (getValue key onLoad w).2)
  ∧ bounded (cache (getValue key onLoad w).2)
  ∧ config (cache (getValue key onLoad w).2) = config (cache w).
Proof.
  intros Hwf Hb. rewrite getValue_eq.
  assert (wf (cache (hit key onLoad w)) ∧ bounded (cache (hit key onLoad w))
          ∧ wf (cache (hit key onLoad (ticked w)))
          ∧ bounded (cache (hit key onLoad (ticked w)))) as (? & ? & ? & ?).
  { unfold wf, bounded in *. simpl.
    rewrite list_MoveToFront_length by apply Hwf.
    split; [by apply wf_store_move|]. split; [done|].
    split; [by apply wf_store_move|done]. }
  destruct (c_items (cache w) !! key) as [item|]; [|done].
  destruct (it_expiration item) as [D|]; [|done].
  destruct (time.Before D (Clock_peek (c_clock (cache w)))); [|done].
  by apply (removeElement_bounded item (ticked w)).
Qed.

Lemma step_call_bounded (cl : call K V) w :
  c_loaderExpireFunc (cache w) = None →
  wf (cache w) → bounded (cache w) →
  wf (cache (step_call load cl w))
  ∧ bounded (cache (step_call load cl w))
  ∧ config (cache (step_call load cl w)) = config (cache w).
Proof.
  intros Hl Hwf Hb.
  destruct cl as [o|key|key|ce keys|ce|ce|ce|visitor]; simpl.
  - by apply step_bounded.
  - rewrite Get_eq_get by (by right). rewrite get_world.
    by apply getValue_bounded.
  - assert (GetIFPresent load key w = get key false w) as ->.
    { unfold GetIFPresent, bind at 1.
      pose proof (get_world key false w) as Hw.
      pose proof (getValue_config key false w) as Hcfg.
      destruct (get key false w) as [[v|e] w1]; [done|].
      simpl in *. destruct (decide (e = KeyNotFoundError)) as [->|Hne];
        [|by destruct e].
      rewrite getWithLoader_none; [done|]. subst w1.
      unfold config in Hcfg. congruence. }
    rewrite get_world. by apply getValue_bounded.
  - destruct (BatchGet_eq load ce keys w) as [-> _]; [by right|done].
  - by rewrite Keys_eq.
  - by destruct (GetALL_eq ce w) as [-> _].
  - rewrite Len_eq. by destruct ce.
  - rewrite Purge_eq. unfold wf, bounded. simpl.
    split; [apply wf_store_empty|]. split; [lia|done].
Qed.

(** X15: whatever the configured size, every sequence of public calls on
    a cache built without loader (Set, SetWithExpire, BatchSet, Get,
    GetIFPresent, BatchGet, GetKeyTTL, Has, Remove, Keys, GetALL, Len,
    Purge) leaves the map and the recency list in agreement, the options
    unchanged, and at most [max(1, size)] entries: a cache built with a
    size below 1 holds one entry at most. *)
Theorem X15_every_call (cb : CacheBuilder K V) sys (cs : list (call K V)) :
  cb_loaderExpireFunc cb = None →
  let w := run_calls load cs (newWorld cb sys) in
  wf (cache w)
  ∧ live (cache w) ≤ Z.max 1 (cb_size cb)
  ∧ config (cache w) = config (newLRUCache cb).
Proof.
  intros Hl w. subst w.
  assert (∀ w0, c_loaderExpireFunc (cache w0) = None →
            wf (cache w0) → bounded (cache w0) →
            wf (cache (run_calls load cs w0))
            ∧ bounded (cache (run_calls load cs w0))
            ∧ config (cache (run_calls load cs w0)) = config (cache w0)) as Hrun.
  { induction cs as [|cl cs IH]; intros w0 Hl0 Hwf0 Hb0; [done|]. simpl.
    destruct (step_call_bounded cl w0 Hl0 Hwf0 Hb0) as (Hwf1 & Hb1 & Hcfg1).
    destruct (IH (step_call load cl w0)) as (? & ? & Hcfg2); [|done|done|].
    { unfold config in Hcfg1. congruence. }
    split; [done|]. split; [done|]. exact (eq_trans Hcfg2 Hcfg1). }
  destruct (Hrun (newWorld cb sys)) as (Hwf & Hb & Hcfg); [done| | |].
  { apply wf_store_empty. }
  { unfold bounded. simpl. lia. }
  split; [done|]. split; [|done].
  rewrite wf_live by done. unfold bounded in Hb.
  by rewrite (config_size _ _ Hcfg) in Hb.
Qed.

End Whole.

(** ** The further statements on concrete caches *)

(** X1 on the full cache of scenario 1. *)
Lemma X1_Remove_witness :
  wf (cache Ex.two)
  ∧ (Remove "a" Ex.two).1 = true
  ∧ c_evictList (cache (Remove "a" Ex.two).2)
    = list_Remove "a" (c_evictList (cache Ex.two))
  ∧ Remove "a" (Remove "a" Ex.two).2 = (false, (Remove "a" Ex.two).2).
Proof.
  assert (wf (cache Ex.two)) as Hwf by (by apply reachable_inv; vm_compute).
  destruct (X1_Remove "a" Ex.two Hwf) as [Hstored _].
  destruct (Hstored {| it_key := "a"; it_value := 1; it_expiration := None |}
              eq_refl) as (H1 & _ & H2 & _ & _ & _ & _ & H3).
  exact (conj Hwf (conj H1 (conj H2 H3))).
Defined.

(** X2: five evictions from a list of two empty it. *)
Lemma X2_evict_witness :
  wf (cache Ex.two)
  ∧ c_evictList (cache (evict 5 Ex.two).2) = []
  ∧ live (cache (evict 5 Ex.two).2) = 0
  ∧ trace (evict 5 Ex.two).2
    = trace Ex.two ++ [EvictedFunc "a" 1; EvictedFunc "b" 2].
Proof.
  assert (wf (cache Ex.two)) as Hwf by (by apply reachable_inv; vm_compute).
  destruct (X2_evict 5 Ex.two Hwf) as (H1 & _ & H2 & H3 & _).
  split; [exact Hwf|]. split; [exact H1|]. split; [exact H2|exact H3].
Defined.

(** X4 on a fresh cache without hooks. *)
Lemma X4_Set_get_witness :
  serialize (cache Ex.fresh) "a" 1 = Ok 1
  ∧ (Get Ex.no_load "a" (Set_ "a" 1 Ex.fresh).2).1 = Ok 1
  ∧ (Has "a" (Set_ "a" 1 Ex.fresh).2).1 = true.
Proof.
  destruct (X4_Set_get Ex.no_load "a" 1 1 Ex.fresh eq_refl) as (_ & Hhas & Hget).
  split; [done|]. split; [by apply Hget|exact Hhas].
Defined.

(** X5 on a clock that stands still. *)
Lemma X5_SetWithExpire_GetKeyTTL_witness :
  serialize (cache Ex.fresh) "a" 1 = Ok 1
  ∧ (GetKeyTTL "a" (SetWithExpire "a" 1 10 Ex.fresh).2).1 = Ok 10.
Proof.
  destruct (X5_SetWithExpire_GetKeyTTL "a" 1 1 10 Ex.fresh eq_refl) as (_ & Hstill & _).
  split; [done|]. apply Hstill; [done|by vm_compute].
Defined.

(** X6 on the full cache of scenario 1: "a" is read, then "c" comes in
    and "a" stays. *)
Lemma X6_recency_witness :
  wf (cache Ex.two) ∧ within_capacity (cache Ex.two)
  ∧ (getValue "a" false Ex.two).1 = Ok 1
  ∧ c_items (cache (Set_ "c" 3 (getValue "a" false Ex.two).2).2) !! "a"
    = c_items (cache Ex.two) !! "a".
Proof.
  destruct (reachable_inv (Ex.builder 2 None None None) (Ex.still 0)
              [OpSet "a" 1; OpSet "b" 2]) as (Hwf & Hcap & _); [by vm_compute|].
  destruct (X6_recency "a" 1 false "c" 3 Ex.two Hwf Hcap eq_refl)
    as (_ & Hstay & _); [done|].
  split; [exact Hwf|]. split; [exact Hcap|]. split; [done|].
  apply Hstay. by vm_compute.
Defined.

(** X7 on scenario 1. *)
Lemma X7_most_recent_witness :
  c_evictList
    (cache (run ((λ kv, OpSet kv.1 kv.2) <$> [("a", 1); ("b", 2); ("c", 3)])
              Ex.fresh))
  = take 2 (reverse ["a"; "b"; "c"]).
Proof.
  apply (X7_most_recent (Ex.builder 2 None None None) (Ex.still 0)
           [("a", 1); ("b", 2); ("c", 3)]).
  - by vm_compute.
  - done.
  - apply (bool_decide_unpack _). by vm_compute.
Defined.

(** X8: the three requests of [Ex.batch3] into a cache of three. *)
Lemma X8_BatchSet_applied_witness :
  wf (cache Ex.picky) ∧ within_capacity (cache Ex.picky)
  ∧ Z.of_nat (length Ex.batch3) ≤ c_size (cache Ex.picky)
  ∧ BatchSet Ex.batch3 Ex.picky = (None, run (req_op <$> Ex.batch3) Ex.picky).
Proof.
  destruct (reachable_inv (Ex.builder 3 None (Some Ex.refuse_negative) None)
              (Ex.still 0) []) as (Hwf & Hcap & _); [by vm_compute|].
  assert (Z.of_nat (length Ex.batch3) ≤ c_size (cache Ex.picky)) as Hlen
    by (by vm_compute).
  destruct (X8_BatchSet_applied Ex.batch3 Ex.picky Hwf Hcap Hlen) as (Hrun & _).
  { intros r Hr. unfold Ex.batch3 in Hr.
    repeat (apply elem_of_cons in Hr as [->|Hr]; [by eexists|]).
    by apply elem_of_nil in Hr. }
  exact (conj Hwf (conj Hcap (conj Hlen Hrun))).
Defined.

(** X11 on the cache of scenario 1, for a stored and a missing key. *)
Lemma X11_BatchGet_witness :
  c_loaderExpireFunc (cache Ex.two) = None
  ∧ (BatchGet Ex.no_load true ["a"; "zz"] Ex.two).1 !! "a" = Some 1
  ∧ (BatchGet Ex.no_load true ["a"; "zz"] Ex.two).1 !! "zz" = None
  ∧ cache (BatchGet Ex.no_load true ["a"; "zz"] Ex.two).2 = cache Ex.two.
Proof.
  destruct (X11_BatchGet Ex.no_load true ["a"; "zz"] Ex.two) as (Hk & Hc & _);
    [by right|].
  split; [done|]. split; [by rewrite Hk|]. split; [by rewrite Hk|exact Hc].
Defined.

(** X14 on a key that was never set. *)
Lemma X14_Get_without_loader_witness :
  c_loaderExpireFunc (cache Ex.two) = None
  ∧ Get Ex.no_load "zz" Ex.two = (Err KeyNotFoundError, missed false Ex.two).
Proof.
  destruct (X14_Get_without_loader Ex.no_load "zz" Ex.two eq_refl) as (_ & _ & Hmiss).
  split; [done|]. by apply Hmiss.
Defined.

(** X15 on a cache built with size 0: it never holds more than one key. *)
Lemma X15_every_call_witness :
  cb_loaderExpireFunc (Ex.builder 0 None None None) = None
  ∧ live (cache (run_calls Ex.no_load
                   [CallOp (OpSet "a" 1); CallOp (OpSet "b" 2); CallGet "b";
                    CallPurge true; CallOp (OpSet "c" 3)]
                   (newWorld (Ex.builder 0 None None None) (Ex.still 0))))
    ≤ 1.
Proof.
  split; [done|].
  apply (X15_every_call Ex.no_load (Ex.builder 0 None None None) (Ex.still 0)).
  done.
Defined.

(** ** Lazy expiry and capacity *)

Section Expiry.
Context {K : Type} {EqK : EqDecision K} {CntK : Countable K} {V : Type}.
Implicit Types (c : LRUCache K V) (w : World K V) (k key : K) (value v : V).
Implicit Types (m : gmap K (lruItem K V)) (l : list K) (it item entry : lruItem K V).

(** X16: the lookup that finds an entry expired frees its place: the store
    has one entry less, and the next Set of a key that is not stored (or of
    the expired key itself) evicts nothing, every other entry staying as
    it was. *)
Theorem X16_expiry_frees_a_slot key item D onLoad key' value' v' w :
  wf (cache w) → within_capacity (cache w) →
  c_items (cache w) !! key = Some item → it_expiration item = Some D →
  D < Clock_peek (c_clock (cache w)) →
  c_items (cache w) !! key' = None ∨ key' = key →
  serialize (cache w) key' value' = Ok v' →
  let w1 := (getValue key onLoad w).2 in
  live (cache w1) = live (cache w) - 1
  ∧ set key' value' w1 = (Ok key', pushed key' v' w1)
  ∧ trace (set key' value' w1).2 = trace w1 ++ added_events (cache w) key' v'
  ∧ (∀ k, k ≠ key → k ≠ key' →
       c_items (cache (Set_ key' value' w1).2) !! k = c_items (cache w) !! k).
Proof.
  intros Hwf Hcap Hit HD Hpast Hnew Hs w1.
  assert (it_key item = key) as Hk by (by apply Hwf).
  assert (w1 = missed onLoad (removeElement item (ticked w)).2) as Hw1.
  { subst w1. rewrite getValue_eq, Hit, HD. unfold time.Before.
    by rewrite (proj2 (Z.ltb_lt _ _) Hpast). }
  rewrite removeElement_eq in Hw1. simpl in Hw1.
  assert (c_items (cache w1) = delete key (c_items (cache w))) as Hm1
    by (rewrite Hw1; simpl; by rewrite Hk).
  assert (c_evictList (cache w1) = list_Remove key (c_evictList (cache w))) as Hl1
    by (rewrite Hw1; simpl; by rewrite Hk).
  assert (c_size (cache w1) = c_size (cache w)) as Hsz1 by (by rewrite Hw1).
  assert (serialize (cache w1) key' value' = Ok v') as Hs1 by (by rewrite Hw1).
  assert (added_events (cache w1) key' v' = added_events (cache w) key' v') as Ha
    by (by rewrite Hw1).
  assert (key ∈ c_evictList (cache w)) as Hkl by (apply Hwf; by eauto).
  assert (S (length (c_evictList (cache w1))) = length (c_evictList (cache w)))
    as Hlen by (rewrite Hl1; apply list_Remove_length; [apply Hwf|done]).
  assert (c_items (cache w1) !! key' = None) as Hnew1.
  { rewrite Hm1. destruct Hnew as [Hn| ->]; [|by rewrite lookup_delete_eq].
    rewrite lookup_delete_ne; [done|]. intros <-. congruence. }
  assert (set key' value' w1 = (Ok key', pushed key' v' w1)) as Hset.
  { apply set_new_room; [done|done|]. unfold within_capacity in Hcap. lia. }
  split.
  { unfold live. rewrite Hm1, map_size_delete_Some by eauto.
    assert (size (c_items (cache w)) ≠ 0%nat); [|lia].
    apply map_size_ne_0_lookup_2 with key. by eauto. }
  split; [done|]. split; [by rewrite Hset, <- Ha|].
  intros k Hne Hne'. rewrite Set_eq, Hset. simpl.
  by rewrite lookup_insert_ne, Hm1, lookup_delete_ne.
Qed.

(** X17: for a stored key with a deadline, the lookup and GetKeyTTL agree
    at one reading of the clock: the lookup finds the key exactly when the
    remaining duration that GetKeyTTL returns is not negative. *)
Theorem X17_found_iff_ttl_not_negative key item D onLoad w :
  c_items (cache w) !! key = Some item → it_expiration item = Some D →
  ∃ d, (GetKeyTTL key w).1 = Ok d
       ∧ ((getValue key onLoad w).1 = Ok (it_value item) ↔ 0 ≤ d)
       ∧ ((getValue key onLoad w).1 = Err KeyNotFoundError ↔ d < 0).
Proof.
  intros Hit HD. exists (time.Sub D (Clock_peek (c_clock (cache w)))).
  rewrite GetKeyTTL_eq, getValue_eq, Hit, HD. simpl.
  split; [done|]. unfold time.Before, time.Sub.
  set (now := Clock_peek (c_clock (cache w))).
  assert (time.minDuration < 0 ∧ 0 ≤ time.maxDuration) as [Hmin Hmax]
    by (by vm_compute).
  destruct (Z.ltb_spec D now) as [Hlt|Hge]; simpl.
  - destruct (Z.ltb_spec (D - now) time.minDuration);
      [|destruct (Z.ltb_spec time.maxDuration (D - now))];
      (split; split; intros; try done; lia).
  - destruct (Z.ltb_spec (D - now) time.minDuration);
      [|destruct (Z.ltb_spec time.maxDuration (D - now))];
      (split; split; intros; try done; lia).
Qed.

End Expiry.

(** X16 on scenario 2: the expired "x" is looked up, then "y" comes in. *)
Lemma X16_expiry_frees_a_slot_witness :
  wf (cache Ex.aged) ∧ within_capacity (cache Ex.aged)
  ∧ 50 < Clock_peek (c_clock (cache Ex.aged))
  ∧ live (cache (getValue "x" false Ex.aged).2) = live (cache Ex.aged) - 1
  ∧ set "y" 2 (getValue "x" false Ex.aged).2
    = (Ok "y", pushed "y" 2 (getValue "x" false Ex.aged).2).
Proof.
  destruct (reachable_inv (Ex.builder_on (Ex.ticking 100) 2 None None None)
              (Ex.still 100) [OpSetWithExpire "x" 1 50])
    as (Hwf & Hcap & _); [by vm_compute|].
  assert (50 < Clock_peek (c_clock (cache Ex.aged))) as Hpast by (by vm_compute).
  destruct (X16_expiry_frees_a_slot "x"
              {| it_key := "x"; it_value := 1; it_expiration := Some 50 |}
              50 false "y" 2 2 Ex.aged Hwf Hcap eq_refl eq_refl Hpast)
    as (Hlive & Hset & _); [by left|done|].
  exact (conj Hwf (conj Hcap (conj Hpast (conj Hlive Hset)))).
Defined.

(** X17 on scenario 2: 50 before the clock's reading. *)
Lemma X17_found_iff_ttl_not_negative_witness :
  c_items (cache Ex.aged) !! "x"
  = Some {| it_key := "x"; it_value := 1; it_expiration := Some 50 |}
  ∧ ∃ d, (GetKeyTTL "x" Ex.aged).1 = Ok d
         ∧ ((getValue "x" false Ex.aged).1 = Err KeyNotFoundError ↔ d < 0).
Proof.
  split; [done|].
  destruct (X17_found_iff_ttl_not_negative "x"
              {| it_key := "x"; it_value := 1; it_expiration := Some 50 |}
              50 false Ex.aged eq_refl eq_refl) as (d & Hd & _ & Hneg).
  by exists d.
Defined.

(** X3 on the cache of scenario 1: a hit moves "a" to the front and counts
    one hit. *)
Lemma X3_getValue_witness :
  (getValue "a" false Ex.two).1 = Ok 1
  ∧ c_evictList (cache (getValue "a" false Ex.two).2)
    = list_MoveToFront "a" (c_evictList (cache Ex.two))
  ∧ trace (getValue "a" false Ex.two).2 = trace Ex.two ++ [IncrHitCount].
Proof.
  destruct (X3_getValue "a" false Ex.two) as (_ & _ & Hhit & _ & Htrace).
  destruct (Hhit 1 eq_refl) as [_ Hl].
  split; [done|]. split; [exact Hl|exact Htrace].
Defined.

(** X9 on scenario 2: one key stored, none alive at the system clock; and
    on the cache of scenario 1 with [keys] running through the map the
    other way round. *)
Lemma X9_Keys_Len_witness :
  (∀ l : list string, reverse l ≡ₚ l)
  ∧ (Len false Ex.aged).1 = 1 ∧ (Len true Ex.aged).1 = 0
  ∧ (Len true Ex.aged).1 = Z.of_nat (length (Keys true Ex.aged).1)
  ∧ (Keys false Ex.two).1 ≡ₚ (keys reverse Ex.two).1
  ∧ length (keys reverse Ex.two).1 = 2%nat.
Proof.
  split; [exact reverse_Permutation|].
  destruct (X9_Keys_Len reverse true Ex.aged reverse_Permutation)
    as (_ & _ & _ & _ & Hlen & _).
  split; [done|]. split; [done|]. split; [exact Hlen|].
  destruct (X9_Keys_Len reverse false Ex.two reverse_Permutation)
    as (Hperm & _ & _ & _ & _ & _ & _ & (_ & _ & Hsize & _) & _).
  split; [exact Hperm|exact Hsize].
Defined.

(** X10 on the cache of scenario 1. *)
Lemma X10_GetALL_witness :
  (GetALL false Ex.two).1 = it_value <$> c_items (cache Ex.two)
  ∧ (GetALL false Ex.two).1 !! "b" = Some 2.
Proof.
  destruct (X10_GetALL false Ex.two) as (Hall & _).
  split; [exact Hall|]. by rewrite Hall.
Defined.

(** X12 on the cache of scenario 1: the visitor sees both entries. *)
Lemma X12_Purge_witness :
  c_items (cache (Purge true Ex.two).2) = ∅
  ∧ ("a", 1) ∈ (Purge true Ex.two).1 ∧ ("b", 2) ∈ (Purge true Ex.two).1
  ∧ trace (Purge true Ex.two).2 = trace Ex.two.
Proof.
  destruct (X12_Purge true "a" false Ex.two)
    as (_ & Hm & _ & Ht & _ & _ & _ & _ & _ & _ & _ & Hv).
  split; [exact Hm|]. split; [by apply Hv|]. split; [by apply Hv|exact Ht].
Defined.

(** X13 on a fresh cache: a loaded value with a duration of 10. *)
Lemma X13_loaderCallback_witness :
  (loaderCallback "a" (1, Some 10, None) Ex.fresh).2
  = (SetWithExpire "a" 1 10 Ex.fresh).2
  ∧ (loaderCallback "a" (1, Some 10, None) Ex.fresh).1 = Ok 1
  ∧ loaderCallback "a" (1, None, Some KeyNotFoundError) Ex.fresh
    = (Err KeyNotFoundError, Ex.fresh).
Proof.
  destruct (X13_loaderCallback "a" 1 Ex.fresh) as (Herr & Hwith & _ & Hres).
  split; [exact (Hwith 10)|]. split; [exact (Hres (Some 10))|exact (Herr None _)].
Defined.
